(** * Collapsed-stack ("flamegraph.pl") text import

    A shallow embedding of [isFlameGraphFormat] and
    [convertFlameGraphProfile] together with the properties of the
    detector, the line parser, the frame and stack interning tables and the
    sample expander.

    Conventions of the embedding.
    - A JavaScript string is the list of its code units; the program only
      ever compares code units with ASCII characters, so a code unit is an
      [ascii].
    - Array indices, timestamps and weights are natural numbers.  JavaScript
      numbers are exact on integers below 2^53 and an array holds fewer than
      2^32 elements, so on every run that returns, the numbers of the
      program and of the embedding agree.
    - A [Map] is a [gmap]; only [get] and [set] are used by the program.
    - [console.log] appends to an explicit list of logged lines. *)

From Stdlib Require Import Ascii String Decimal DecimalNat.
From stdpp Require Import gmap strings list fin_maps.

Open Scope char_scope.

Abbreviation jsstr := (list ascii).

(** String literals of the source, as code-unit lists. *)
Definition str (s : string) : jsstr := list_ascii_of_string s.

Definition LF : ascii := "010".

(** ** JavaScript string primitives *)
Module JS.

(** [s.startsWith(p)] *)
Fixpoint startsWith (s p : jsstr) {struct p} : bool :=
  match p, s with
  | [], _ => true
  | _ :: _, [] => false
  | b :: p', a :: s' => Ascii.eqb a b && startsWith s' p'
  end.

(** [s.endsWith(p)]: the last [length p] code units of [s] are [p]. *)
Definition endsWith (s p : jsstr) : bool :=
  (length p <=? length s)%nat && startsWith (drop (length s - length p) s) p.

(** [s.includes(p)] *)
Fixpoint includes (s p : jsstr) : bool :=
  startsWith s p ||
  match s with
  | [] => false
  | _ :: s' => includes s' p
  end.

(** [s.indexOf(p)]: the first position at which [p] occurs, or -1. *)
Fixpoint indexOf_from (i : Z) (s p : jsstr) : Z :=
  if startsWith s p then i
  else match s with
       | [] => (-1)%Z
       | _ :: s' => indexOf_from (i + 1)%Z s' p
       end.

Definition indexOf (s p : jsstr) : Z := indexOf_from 0%Z s p.

(** [s.substring(a, b)]: both arguments are clamped to [0, length s] and
    swapped when [a > b]. *)
Definition clamp (s : jsstr) (i : Z) : nat :=
  Z.to_nat (Z.min (Z.max i 0) (Z.of_nat (length s))).

Definition substring (s : jsstr) (a b : Z) : jsstr :=
  let from := Nat.min (clamp s a) (clamp s b) in
  let to := Nat.max (clamp s a) (clamp s b) in
  take (to - from) (drop from s).

(** [s.split(sep)] for a one-character separator; the result is never
    empty. *)
Fixpoint split (sep : ascii) (s : jsstr) : list jsstr :=
  match s with
  | [] => [[]]
  | a :: s' =>
      if Ascii.eqb a sep then [] :: split sep s'
      else match split sep s' with
           | seg :: segs => (a :: seg) :: segs
           | [] => [[a]]
           end
  end.

(** Decimal digits, the character class [[0-9]]. *)
Definition is_digit (a : ascii) : bool :=
  (48 <=? nat_of_ascii a)%nat && (nat_of_ascii a <=? 57)%nat.

Definition digit_value (a : ascii) : nat := nat_of_ascii a - 48.

(** [parseInt(s)] on a string that starts with its digits (the program
    only passes a capture of [[0-9]+], so leading blanks, signs and radix
    prefixes do not occur): the value of the longest run of leading
    digits, [None] standing for NaN. *)
Fixpoint parseInt_digits (acc : nat) (s : jsstr) : nat :=
  match s with
  | a :: s' =>
      if is_digit a then parseInt_digits (10 * acc + digit_value a) s'
      else acc
  | [] => acc
  end.

Definition parseInt (s : jsstr) : option nat :=
  match s with
  | a :: _ => if is_digit a then Some (parseInt_digits 0 s) else None
  | [] => None
  end.

(** Template-literal rendering [`${n}`] of an array index. *)
Fixpoint uint_digits (d : Decimal.uint) : jsstr :=
  match d with
  | Decimal.Nil => []
  | Decimal.D0 d => "0" :: uint_digits d
  | Decimal.D1 d => "1" :: uint_digits d
  | Decimal.D2 d => "2" :: uint_digits d
  | Decimal.D3 d => "3" :: uint_digits d
  | Decimal.D4 d => "4" :: uint_digits d
  | Decimal.D5 d => "5" :: uint_digits d
  | Decimal.D6 d => "6" :: uint_digits d
  | Decimal.D7 d => "7" :: uint_digits d
  | Decimal.D8 d => "8" :: uint_digits d
  | Decimal.D9 d => "9" :: uint_digits d
  end.

Definition toString (n : nat) : jsstr := uint_digits (Nat.to_uint n).

End JS.

(** ** Backtracking regular expressions

    The fragment of ECMAScript patterns the program uses: character
    classes, concatenation, greedy [*] and [+], capturing groups and the
    end anchor [$] (no [m] flag).  [outs r s c] lists, in backtracking
    priority order, every way [r] can match a prefix of [s]: the input left
    over and the captures.  The first element is the match the engine
    reports. *)
Module Regex.

Inductive regex :=
| Chr (p : ascii → bool)
| Cat (r1 r2 : regex)
| Star (r : regex)
| Group (n : nat) (r : regex)
| Eol.

Definition Plus (r : regex) : regex := Cat r (Star r).

Abbreviation caps := (gmap nat jsstr).

Fixpoint groups (r : regex) : list nat :=
  match r with
  | Chr _ | Eol => []
  | Cat r1 r2 => groups r1 ++ groups r2
  | Star r1 => groups r1
  | Group n r1 => n :: groups r1
  end.

(** Captures of the groups inside a [*] are cleared when an iteration
    starts. *)
Definition reset (gs : list nat) (c : caps) : caps :=
  foldr delete c gs.

Definition set_group (n : nat) (s : jsstr) (o : jsstr * caps) : jsstr * caps :=
  (o.1, <[n := take (length s - length o.1) s]> o.2).

(** The greedy [*]: try one more iteration of [body] first, and only on
    an iteration that consumed input; then stop here.  [fuel] bounds the
    number of iterations by the length of the input. *)
Fixpoint star_iter (body : jsstr → caps → list (jsstr * caps))
    (fuel : nat) (s : jsstr) (c : caps) : list (jsstr * caps) :=
  match fuel with
  | 0 => [(s, c)]
  | S fuel' =>
      (o ← body s c;
       if (length o.1 <? length s)%nat then star_iter body fuel' o.1 o.2 else [])
      ++ [(s, c)]
  end.

Fixpoint outs (r : regex) (s : jsstr) (c : caps) : list (jsstr * caps) :=
  match r with
  | Chr p =>
      match s with
      | a :: s' => if p a then [(s', c)] else []
      | [] => []
      end
  | Cat r1 r2 => o ← outs r1 s c; outs r2 o.1 o.2
  | Group n r1 => set_group n s <$> outs r1 s c
  | Eol => match s with [] => [(s, c)] | _ :: _ => [] end
  | Star r1 =>
      star_iter (λ s' c', outs r1 s' (reset (groups r1) c')) (length s) s c
  end.

(** [RegExp.prototype.exec] without the [g] flag: the first start position
    that has a match, with the input left after the match and the
    captures; group 0 is the whole match. *)
Fixpoint exec_from (r : regex) (i : nat) (s : jsstr) : option (nat * jsstr * caps) :=
  match outs (Group 0 r) s ∅ with
  | o :: _ => Some (i, o.1, o.2)
  | [] =>
      match s with
      | [] => None
      | _ :: s' => exec_from r (S i) s'
      end
  end.

Definition exec (r : regex) (s : jsstr) : option (nat * jsstr * caps) :=
  exec_from r 0 s.

(** [s.match(r)]: the array of captures, or null. *)
Definition match_ (s : jsstr) (r : regex) : option caps :=
  (λ m, m.2) <$> exec r s.

(** [s.replace(r, '')]: the first match is cut out. *)
Definition replace_empty (s : jsstr) (r : regex) : jsstr :=
  match exec r s with
  | Some (i, rest, _) => take i s ++ rest
  | None => s
  end.

Definition lit (a : ascii) : regex := Chr (Ascii.eqb a).
Definition not_semicolon : regex := Chr (λ a, negb (Ascii.eqb a ";")).
Definition digit : regex := Chr JS.is_digit.

End Regex.

Import Regex.

(** ** The format detector *)

(** The frame-path pattern shared by the detector and the line parser: any
    number of non-semicolons, then any number of groups (numbered [g]) made
    of a semicolon and non-semicolons. *)
Definition path_re (g : nat) : regex :=
  Cat (Star not_semicolon)
      (Star (Group g (Cat (lit ";") (Star not_semicolon)))).

(** The detector's pattern: a frame path, one space, one or more digits.  It
    is not anchored. *)
Definition detect_re : regex :=
  Cat (Cat (path_re 1) (lit " ")) (Plus digit).

Definition isFlameGraphFormat (profile : jsstr) : bool :=
  if JS.startsWith profile (str "{") then false
  else
    let firstLine := JS.substring profile 0 (JS.indexOf profile [LF]) in
    bool_decide (is_Some (match_ firstLine detect_re)).

(** ** The converter *)

Definition OTHER_CATEGORY_INDEX : nat := 0.
Definition JAVA_CATEGORY_INDEX : nat := 1.
Definition NATIVE_CATEGORY_INDEX : nat := 2.

(** Rows of the three tables, columns in schema order.  The columns of a
    frame row that the program fills with a constant ([relevantForJS] false,
    [innerWindowID] 0, the others null) are left out. *)
Record frame_row := FrameRow { fr_location : nat; fr_category : nat }.
Record stack_row := StackRow { sk_prefix : option nat; sk_frame : nat }.
Record sample_row :=
  SampleRow { sa_stack : option nat; sa_time : nat; sa_responsiveness : nat }.

Global Instance frame_row_eq_dec : EqDecision frame_row.
Proof. solve_decision. Defined.
Global Instance stack_row_eq_dec : EqDecision stack_row.
Proof. solve_decision. Defined.
Global Instance sample_row_eq_dec : EqDecision sample_row.
Proof. solve_decision. Defined.

(** The mutable objects closed over by [_createThread]: the three tables,
    the string array and the two maps.  The marker table stays empty and is
    left out; [name], [pid] and [tid] are only read by [finish] and are
    passed there. *)
Record thread := Thread {
  samples : list sample_row;
  frameTable : list frame_row;
  stackTable : list stack_row;
  stringTable : list jsstr;
  stackMap : gmap jsstr nat;
  frameMap : gmap jsstr nat;
}.

Definition createThread : thread :=
  Thread [] [] [] [] ∅ ∅.

Definition stack_key (frame : nat) (prefix : option nat) : jsstr :=
  match prefix with
  | None => JS.toString frame
  | Some p => JS.toString frame ++ str "," ++ JS.toString p
  end.

Definition getOrCreateStack (frame : nat) (prefix : option nat) (th : thread)
  : nat * thread :=
  let key := stack_key frame prefix in
  match stackMap th !! key with
  | Some stack => (stack, th)
  | None =>
      let stack := length (stackTable th) in
      (stack,
       Thread (samples th) (frameTable th)
              (stackTable th ++ [StackRow prefix frame])
              (stringTable th)
              (<[key := stack]> (stackMap th)) (frameMap th))
  end.

(** The pattern that removes a trailing Java marker: the four characters
    underscore, opening bracket, j, closing bracket, at the end of input. *)
Definition java_suffix_re : regex :=
  Cat (Cat (Cat (Cat (lit "_") (lit "[")) (lit "j")) (lit "]")) Eol.

Definition frame_category (frameString : jsstr) : nat :=
  if JS.endsWith frameString (str "_[j]") then JAVA_CATEGORY_INDEX
  else if negb (JS.includes frameString (str "::")) then NATIVE_CATEGORY_INDEX
  else OTHER_CATEGORY_INDEX.

Definition getOrCreateFrame (frameString : jsstr) (th : thread) : nat * thread :=
  match frameMap th !! frameString with
  | Some frame => (frame, th)
  | None =>
      let frame := length (frameTable th) in
      let location := length (stringTable th) in
      (frame,
       Thread (samples th)
              (frameTable th ++ [FrameRow location (frame_category frameString)])
              (stackTable th)
              (stringTable th ++ [replace_empty frameString java_suffix_re])
              (stackMap th)
              (<[frameString := frame]> (frameMap th)))
  end.

(** One step of the [reduce] in [addSample]. *)
Definition extend_stack (acc : option nat * thread) (stackFrame : jsstr)
  : option nat * thread :=
  let '(frame, th1) := getOrCreateFrame stackFrame acc.2 in
  let '(stack, th2) := getOrCreateStack frame acc.1 th1 in
  (Some stack, th2).

Definition addSample (time : nat) (stackArray : list jsstr) (th : thread) : thread :=
  let '(stack, th') := foldl extend_stack (None, th) stackArray in
  Thread (samples th' ++ [SampleRow stack time 0])
         (frameTable th') (stackTable th') (stringTable th')
         (stackMap th') (frameMap th').

(** The line pattern: group 1 is the frame path (its repeated part being
    group 2), then one space, then group 3, one or more digits.  It is not
    anchored either. *)
Definition line_re : regex :=
  Cat (Cat (Group 1 (path_re 2)) (lit " ")) (Group 3 (Plus digit)).

(** The state of the loop over the lines: the thread under construction,
    [timeStamp] and what was written to the console. *)
Record conv := Conv {
  cv_thread : thread;
  cv_timeStamp : nat;
  cv_console : list jsstr;
}.

(** The body of [while (count-- > 0)]. *)
Definition emit (frames : jsstr) (cv : conv) : conv :=
  let stack := JS.split ";" frames in
  if bool_decide (length stack ≠ 0) then
    Conv (addSample (cv_timeStamp cv) stack (cv_thread cv))
         (S (cv_timeStamp cv)) (cv_console cv)
  else cv.

(** The body of [for (const line of lines)].  Groups 1 and 3 take part in
    every match of [line_re] (lemma [match_line_groups]), so the
    destructured [frames] and [duration] are always strings and the
    defaults below are never used. *)
Definition process_line (cv : conv) (line : jsstr) : conv :=
  if bool_decide (line = []) then cv
  else
    match match_ line line_re with
    | None => Conv (cv_thread cv) (cv_timeStamp cv) (cv_console cv ++ [line])
    | Some matched =>
        let frames := default [] (matched !! 1) in
        let duration := default [] (matched !! 3) in
        let count := default 0 (JS.parseInt duration) in
        Nat.iter count (emit frames) cv
    end.

Definition run_lines (lines : list jsstr) : conv :=
  foldl process_line (Conv createThread 0 []) lines.

Definition run (profile : jsstr) : conv :=
  run_lines (JS.split LF profile).

(** The object returned by [finish] and the profile around it.  Fields that
    hold a constant (the empty marker table, [registerTime], [processType],
    the empty [libs], [processes] and [pausedRanges], and the metadata other
    than the version and the sampling interval) are left out. *)
Record thread_result := ThreadResult {
  tr_name : string; tr_pid : nat; tr_tid : nat;
  tr_samples : list sample_row;
  tr_frameTable : list frame_row;
  tr_stackTable : list stack_row;
  tr_stringTable : list jsstr;
}.

Record profile_result := Profile {
  meta_version : nat;
  meta_interval : nat;
  threads : list thread_result;
}.

Definition finish (name : string) (pid tid : nat) (th : thread) : thread_result :=
  ThreadResult name pid tid
    (samples th) (frameTable th) (stackTable th) (stringTable th).

Definition convertFlameGraphProfile (profile : jsstr) : profile_result :=
  Profile 24 1 [finish "MainThread" 0 0 (cv_thread (run profile))].

(** ** Specification-side definitions *)

(** All suffixes of a string, the shortest first. *)
Fixpoint suffixes (s : jsstr) : list jsstr :=
  match s with
  | [] => [[]]
  | _ :: s' => suffixes s' ++ [s]
  end.

(** The suffixes reached by dropping leading characters that satisfy [p]. *)
Fixpoint class_tails (p : ascii → bool) (s : jsstr) : list jsstr :=
  match s with
  | [] => [[]]
  | a :: s' => if p a then class_tails p s' ++ [s] else [s]
  end.

(** A space immediately followed by a digit, at the start of [s] and
    anywhere in [s]. *)
Definition space_digit (s : jsstr) : bool :=
  match s with
  | " " :: d :: _ => JS.is_digit d
  | _ => false
  end.

Fixpoint has_weight (s : jsstr) : bool :=
  space_digit s ||
  match s with
  | [] => false
  | _ :: s' => has_weight s'
  end.

(** The leading run of digits of a string. *)
Fixpoint leading_digits (s : jsstr) : jsstr :=
  match s with
  | a :: s' => if JS.is_digit a then a :: leading_digits s' else []
  | [] => []
  end.

(** The Java marker and the label that is stored for a raw label. *)
Definition java_marker : jsstr := str "_[j]".

Definition stored_label (l : jsstr) : jsstr :=
  if JS.endsWith l java_marker then take (length l - 4) l else l.

(** Raw labels in the order in which they were first seen. *)
Definition note_label (raws : list jsstr) (l : jsstr) : list jsstr :=
  if decide (l ∈ raws) then raws else raws ++ [l].

Definition first_seen (ls : list jsstr) : list jsstr :=
  foldl note_label [] ls.

(** What the parser reads on a line: the frame path and the weight. *)
Definition line_frames (line : jsstr) : option jsstr :=
  m ← match_ line line_re; Some (default [] (m !! 1)).

Definition line_weight (line : jsstr) : nat :=
  match match_ line line_re with
  | Some m => default 0 (JS.parseInt (default [] (m !! 3)))
  | None => 0
  end.

Definition total_weight (profile : jsstr) : nat :=
  sum_list (line_weight <$> JS.split LF profile).

(** The labels passed to [getOrCreateFrame], in call order: the frames of a
    line, once per sample of the line. *)
Definition line_calls (line : jsstr) : list jsstr :=
  match line_frames line with
  | Some frames => mjoin (replicate (line_weight line) (JS.split ";" frames))
  | None => []
  end.

Definition frame_calls (profile : jsstr) : list jsstr :=
  JS.split LF profile ≫= line_calls.

(** The invariant of the thread under construction; [raws] are the raw
    labels interned so far, in first-seen order. *)
Record thread_inv (raws : list jsstr) (th : thread) : Prop := ThreadInv {
  inv_frameMap : ∀ l i, frameMap th !! l = Some i ↔ raws !! i = Some l;
  inv_frameTable :
    frameTable th = imap (λ i l, FrameRow i (frame_category l)) raws;
  inv_stringTable : stringTable th = stored_label <$> raws;
  inv_stackMap : ∀ k i,
    stackMap th !! k = Some i ↔
    ∃ row, stackTable th !! i = Some row ∧
           k = stack_key (sk_frame row) (sk_prefix row);
  inv_stackTable : ∀ i row,
    stackTable th !! i = Some row →
    sk_frame row < length raws ∧ ∀ p, sk_prefix row = Some p → p < i;
  inv_samples : ∀ row,
    row ∈ samples th →
    ∃ s, sa_stack row = Some s ∧ s < length (stackTable th);
}.

(** A prefix argument of [getOrCreateStack]: null or an existing stack. *)
Definition valid_prefix (prefix : option nat) (th : thread) : Prop :=
  ∀ p, prefix = Some p → p < length (stackTable th).

(** The detector as the specification words it: the first line is the text
    up to the first line break, or the whole text when there is none, and it
    has to consist of a frame path, whitespace and one or more digits. *)
Fixpoint first_line (text : jsstr) : jsstr :=
  match text with
  | [] => []
  | a :: text' => if Ascii.eqb a LF then [] else a :: first_line text'
  end.

Fixpoint skip_digits (s : jsstr) : jsstr :=
  match s with
  | a :: s' => if JS.is_digit a then skip_digits s' else s
  | [] => []
  end.

Definition claimed_shape (line : jsstr) : bool :=
  match rev line with
  | d :: r =>
      JS.is_digit d &&
      match skip_digits r with
      | w :: _ => Ascii.is_space w
      | [] => false
      end
  | [] => false
  end.

Definition claimed_detector (text : jsstr) : bool :=
  if JS.startsWith text (str "{") then false
  else claimed_shape (first_line text).

(** The repeated part of the frame path, and what follows the frame path:
    one space, then the pattern [D]. *)
Definition segment_re (g : nat) : regex :=
  Group g (Cat (lit ";") (Star not_semicolon)).

Definition after_path (D : regex) (o : jsstr * caps) : list (jsstr * caps) :=
  outs (lit " ") o.1 o.2 ≫= (λ o1, outs D o1.1 o1.2).

(** The loop invariant: the thread invariant, and the samples emitted so
    far carry the timestamps 0, 1, ... up to [timeStamp]. *)
Definition conv_inv (raws : list jsstr) (cv : conv) : Prop :=
  thread_inv raws (cv_thread cv) ∧
  sa_time <$> samples (cv_thread cv) = seq 0 (cv_timeStamp cv).

(** Following the prefixes from row [i] reaches a row without prefix
    within [fuel] steps. *)
Fixpoint reaches_root (tbl : list stack_row) (fuel : nat) (i : nat) : bool :=
  match fuel with
  | 0 => false
  | S fuel' =>
      match tbl !! i with
      | None => false
      | Some row =>
          match sk_prefix row with
          | None => true
          | Some p => reaches_root tbl fuel' p
          end
      end
  end.

(** How the line parser judges a line. *)
Definition well_formed_line (line : jsstr) : Prop := is_Some (match_ line line_re).
Definition malformed_line (line : jsstr) : Prop :=
  line ≠ [] ∧ match_ line line_re = None.

Global Instance well_formed_line_dec line : Decision (well_formed_line line).
Proof. unfold well_formed_line. apply _. Defined.
Global Instance malformed_line_dec line : Decision (malformed_line line).
Proof. unfold malformed_line. apply _. Defined.

(** The profile whose single thread has empty tables. *)
Definition empty_profile : profile_result :=
  Profile 24 1 [ThreadResult "MainThread" 0 0 [] [] [] []].

(** ** Reading the tables back *)

(** The thread [th'] extends [th]: rows are only appended to the tables and
    entries are only added to the maps. *)
Record grows (th th' : thread) : Prop := Grows {
  grows_samples : samples th `prefix_of` samples th';
  grows_frameTable : frameTable th `prefix_of` frameTable th';
  grows_stackTable : stackTable th `prefix_of` stackTable th';
  grows_stringTable : stringTable th `prefix_of` stringTable th';
  grows_stackMap : stackMap th ⊆ stackMap th';
  grows_frameMap : frameMap th ⊆ frameMap th';
}.

(** The frames of the call path of a stack, the root first: as a relation,
    and as the function a consumer of the tables runs. *)
Inductive path_of (tbl : list stack_row) : nat → list nat → Prop :=
| path_root s f :
    tbl !! s = Some (StackRow None f) → path_of tbl s [f]
| path_step s p f fs :
    tbl !! s = Some (StackRow (Some p) f) → path_of tbl p fs →
    path_of tbl s (fs ++ [f]).

Fixpoint stack_path (tbl : list stack_row) (fuel : nat) (s : nat)
  : option (list nat) :=
  match fuel with
  | 0 => None
  | S fuel' =>
      row ← tbl !! s;
      match sk_prefix row with
      | None => Some [sk_frame row]
      | Some p => (λ fs, fs ++ [sk_frame row]) <$> stack_path tbl fuel' p
      end
  end.

(** The label of a frame and the labels of the call path of a sample, read
    from the tables of the result. *)
Definition frame_label (tr : thread_result) (f : nat) : option jsstr :=
  row ← tr_frameTable tr !! f; tr_stringTable tr !! fr_location row.

Definition sample_labels (tr : thread_result) (row : sample_row)
  : option (list jsstr) :=
  s ← sa_stack row;
  fs ← stack_path (tr_stackTable tr) (length (tr_stackTable tr)) s;
  mapM (frame_label tr) fs.

(** The stored call paths a line contributes: one per sample. *)
Definition line_paths (line : jsstr) : list (list jsstr) :=
  match line_frames line with
  | Some frames =>
      replicate (line_weight line) (stored_label <$> JS.split ";" frames)
  | None => []
  end.

(** The stack of a sample spells the raw labels [ls]. *)
Definition spells (raws : list jsstr) (th : thread) (row : sample_row)
    (ls : list jsstr) : Prop :=
  ∃ s fs, sa_stack row = Some s ∧ path_of (stackTable th) s fs ∧
          Forall2 (λ f l, raws !! f = Some l) fs ls.

(** The accumulator of the fold in [addSample] stands for the path read so
    far. *)
Definition acc_path (tbl : list stack_row) (prefix : option nat)
    (fs : list nat) : Prop :=
  match prefix with
  | None => fs = []
  | Some s => path_of tbl s fs
  end.

(** The raw call paths a line contributes: one per sample. *)
Definition line_raw_paths (line : jsstr) : list (list jsstr) :=
  replicate (line_weight line) (JS.split ";" (default [] (line_frames line))).

(** The three categories of the profile metadata: name and colour. *)
Definition CATEGORIES : list (string * string) :=
  [("Other", "grey"); ("Java", "yellow"); ("Native", "blue")]%string.

From Stdlib Require Import QArith.
Close Scope Q_scope.

(** ** The timeline ruler: nice notch distances *)

(** The candidates of the two special cases, in the order in which the
    loops try them. *)
Definition byte_candidates : list Z :=
  power ← [1; 2; 3]%Z;
  value ← [1; 2; 4; 8; 16; 32; 64; 128; 256; 512]%Z;
  [(value * 1024 ^ power)%Z].

Definition time_candidates : list Z :=
  ((λ seconds, seconds * 1000)%Z <$> [15; 20; 30]%Z) ++
  ((λ minutes, minutes * 60 * 1000)%Z <$> [1; 2; 5; 10; 15; 20; 30]%Z) ++
  ((λ hours, hours * 3600 * 1000)%Z <$> [1; 2; 3; 4; 6; 8; 12; 24; 48]%Z).

(** A loop that returns the first candidate that is not below
    [uglyNumber]. *)
Definition first_at_least (uglyNumber : Q) (candidates : list Z) : option Z :=
  find (λ number, Qle_bool uglyNumber (inject_Z number)) candidates.

Definition Qlt_bool (x y : Q) : bool := negb (Qle_bool y x).

(** Every element is at most the elements after it. *)
Fixpoint increasing (l : list Z) : bool :=
  match l with
  | [] => true
  | a :: l' => forallb (Z.leb a) l' && increasing l'
  end.

(** [_findNiceNumberGreaterOrEqualTo].  A finite JavaScript number is a
    rational, and the comparisons with the candidates, which are integers
    below 2^53, are exact.  The last part of the function rounds up to 2, 5
    or 10 times a power of ten with [Math.log10] and [Math.pow]; it is kept
    as the parameter [decimal_nice]. *)
Definition findNiceNumberGreaterOrEqualTo (decimal_nice : Q → Q)
    (unit : string) (uglyNumber : Q) : Q :=
  let special :=
    if String.eqb unit "bytes" then
      if Qlt_bool (inject_Z 1024) uglyNumber
         && Qle_bool uglyNumber (inject_Z (1024 ^ 4))
      then first_at_least uglyNumber byte_candidates
      else None
    else
      if Qlt_bool (inject_Z 10000) uglyNumber
         && Qle_bool uglyNumber (inject_Z (48 * 3600 * 1000))
      then first_at_least uglyNumber time_candidates
      else None
  in
  match special with
  | Some number => inject_Z number
  | None => decimal_nice uglyNumber
  end.

(** ** Scheduling of canvas draws (TrackCustomMarkerCanvas) *)

(** The fields of the component that the scheduling reads and writes, the
    number of callbacks handed to [window.requestAnimationFrame] that have
    not run yet, and the number of calls of [drawCanvas]. *)
Record canvas := Canvas {
  renderScheduled : bool;
  inView : bool;
  requestedAnimationFrame : bool;
  hasCanvas : bool;
  pendingFrames : nat;
  draws : nat;
}.

Definition canvas_init : canvas := Canvas false false false false 0 0.

Definition scheduleDraw (c : canvas) : canvas :=
  if negb (inView c) then
    Canvas true (inView c) (requestedAnimationFrame c) (hasCanvas c)
           (pendingFrames c) (draws c)
  else if negb (requestedAnimationFrame c) then
    Canvas false (inView c) true (hasCanvas c) (S (pendingFrames c)) (draws c)
  else
    Canvas false (inView c) (requestedAnimationFrame c) (hasCanvas c)
           (pendingFrames c) (draws c).

Definition observerCallback (v : bool) (c : canvas) : canvas :=
  let c1 := Canvas (renderScheduled c) v (requestedAnimationFrame c) (hasCanvas c)
                   (pendingFrames c) (draws c) in
  if negb (renderScheduled c1) then c1 else scheduleDraw c1.

Definition takeCanvasRef (b : bool) (c : canvas) : canvas :=
  Canvas (renderScheduled c) (inView c) (requestedAnimationFrame c) b
         (pendingFrames c) (draws c).

(** The callback given to [requestAnimationFrame], run by the browser. *)
Definition animationFrame (c : canvas) : canvas :=
  Canvas (renderScheduled c) (inView c) false (hasCanvas c)
         (pendingFrames c - 1)
         (if hasCanvas c then S (draws c) else draws c).

(** What can happen to the component: React mounts or updates it, the
    intersection observer reports, React passes the canvas element, the
    browser runs a pending animation frame. *)
Inductive canvas_event :=
| DidMount
| DidUpdate
| Observed (v : bool)
| TookRef (b : bool)
| FrameRan.

Global Instance canvas_event_eq_dec : EqDecision canvas_event.
Proof. solve_decision. Defined.

Definition canvas_step (c : canvas) (e : canvas_event) : canvas :=
  match e with
  | DidMount | DidUpdate => scheduleDraw c
  | Observed v => observerCallback v c
  | TookRef b => takeCanvasRef b c
  | FrameRan => if decide (pendingFrames c = 0) then c else animationFrame c
  end.

Definition canvas_run (events : list canvas_event) : canvas :=
  foldl canvas_step canvas_init events.

(** At most one frame is requested, and a deferred render means that the
    canvas is out of view. *)
Definition canvas_inv (c : canvas) : Prop :=
  pendingFrames c = (if requestedAnimationFrame c then 1 else 0) ∧
  (renderScheduled c = true → inView c = false).

(** A draw is on its way: a frame is requested, or the render is deferred
    until the canvas comes into view. *)
Definition draw_due (c : canvas) : Prop :=
  pendingFrames c = 1 ∨ (renderScheduled c = true ∧ inView c = false).

(** ** The marker context menu: selection ranges *)

(** A marker with its start and its end, which is null for an instant
    marker; the preview selection; the committed range.  Times are finite
    JavaScript numbers, that is rationals. *)
Record marker := Marker { marker_start : Q; marker_end : option Q }.

Inductive previewSelection :=
| NoSelection
| Selection (isModifying : bool) (selectionStart selectionEnd : Q).

Record startEndRange := StartEndRange { range_start : Q; range_end : Q }.

Record menu_props := MenuProps {
  prop_marker : marker;
  prop_previewSelection : previewSelection;
  prop_committedRange : startEndRange;
}.

(** [previewSelection.hasSelection ? previewSelection.selectionEnd :
    committedRange.end], and the same for the start. *)
Definition current_selectionEnd (p : menu_props) : Q :=
  match prop_previewSelection p with
  | Selection _ _ e => e
  | NoSelection => range_end (prop_committedRange p)
  end.

Definition current_selectionStart (p : menu_props) : Q :=
  match prop_previewSelection p with
  | Selection _ s _ => s
  | NoSelection => range_start (prop_committedRange p)
  end.

(** [marker.end || marker.start]: null and 0 are falsy. *)
Definition end_or_start (m : marker) : Q :=
  match marker_end m with
  | Some e => if Qeq_bool e (inject_Z 0) then marker_start m else e
  | None => marker_start m
  end.

(** The handlers return the argument of [updatePreviewSelection]. *)
Definition setStartRange (p : menu_props) (selectionStart : Q) : previewSelection :=
  Selection false selectionStart (current_selectionEnd p).

(** [add_small] is the floating-point sum [selectionEnd + 0.0001]. *)
Definition setEndRange (add_small : Q → Q) (p : menu_props) (selectionEnd : Q)
  : previewSelection :=
  let selectionStart := current_selectionStart p in
  let selectionEnd :=
    if Qeq_bool selectionEnd selectionStart then add_small selectionEnd
    else selectionEnd in
  Selection false selectionStart selectionEnd.

Definition setStartRangeFromMarkerEnd (p : menu_props) : previewSelection :=
  setStartRange p (end_or_start (prop_marker p)).

Definition setEndRangeFromMarkerStart (add_small : Q → Q) (p : menu_props)
  : previewSelection :=
  setEndRange add_small p (marker_start (prop_marker p)).

(** The [disabled] attributes computed by [render]. *)
Definition disabled_startAtMarkerEnd (p : menu_props) : bool :=
  Qlt_bool (current_selectionEnd p) (end_or_start (prop_marker p)).

Definition disabled_endAtMarkerStart (p : menu_props) : bool :=
  Qlt_bool (marker_start (prop_marker p)) (current_selectionStart p).

(** The selection is not inverted. *)
Definition ordered (s : previewSelection) : Prop :=
  match s with
  | Selection _ s e => (s <= e)%Q
  | NoSelection => True
  end.

(** * Properties

    ** JavaScript strings *)

Lemma startsWith_spec s p : JS.startsWith s p = true ↔ ∃ t, s = p ++ t.
Proof.
  revert s; induction p as [|b p IH]; intros s; simpl.
  - split; [intros _; by exists s | done].
  - destruct s as [|a s].
    + split; [done | intros [t Ht]; discriminate].
    + rewrite andb_true_iff, IH. split.
      * intros [Hab [t ->]]. apply Ascii.eqb_eq in Hab as ->. eauto.
      * intros [t Ht]. simplify_eq/=. split; [apply Ascii.eqb_refl | eauto].
Qed.

Lemma endsWith_spec s p : JS.endsWith s p = true ↔ ∃ t, s = t ++ p.
Proof.
  unfold JS.endsWith. rewrite andb_true_iff, startsWith_spec, Nat.leb_le. split.
  - intros [Hle [t Ht]]. exists (take (length s - length p) s).
    assert (t = []) as ->.
    { apply (f_equal length) in Ht. rewrite length_drop, length_app in Ht.
      destruct t; [done | simpl in Ht; lia]. }
    rewrite app_nil_r in Ht.
    pose proof (take_drop (length s - length p) s) as Htd. by rewrite Ht in Htd.
  - intros [t ->]. rewrite length_app. split; [lia |].
    exists []. replace (length t + length p - length p) with (length t) by lia.
    by rewrite drop_app_length, app_nil_r.
Qed.

Lemma includes_spec s p : JS.includes s p = true ↔ ∃ u v, s = u ++ p ++ v.
Proof.
  induction s as [|a s IH]; simpl.
  - rewrite orb_false_r, startsWith_spec. split.
    + intros [t Ht]. by exists [], t.
    + intros (u & v & Huv). destruct u; [by exists v |]. discriminate.
  - rewrite orb_true_iff, startsWith_spec, IH. split.
    + intros [[t Ht] | (u & v & ->)]; [by exists [], t | by exists (a :: u), v].
    + intros (u & v & Huv). destruct u as [|b u]; [left; by exists v |].
      right. simplify_eq/=. eauto.
Qed.

Lemma startsWith_char a s c : JS.startsWith (a :: s) [c] = Ascii.eqb a c.
Proof. simpl. by rewrite andb_true_r. Qed.

Lemma indexOf_from_found i l rest :
  LF ∉ l → JS.indexOf_from i (l ++ LF :: rest) [LF] = (i + Z.of_nat (length l))%Z.
Proof.
  revert i; induction l as [|a l IH]; intros i Hl.
  - simpl. lia.
  - apply not_elem_of_cons in Hl as [Ha Hl].
    change ((a :: l) ++ LF :: rest) with (a :: (l ++ LF :: rest)).
    cbn [JS.indexOf_from]. rewrite startsWith_char.
    destruct (Ascii.eqb_spec a LF) as [->|_]; [done |].
    rewrite IH by done. simpl length. lia.
Qed.

Lemma indexOf_from_absent i s : LF ∉ s → JS.indexOf_from i s [LF] = (-1)%Z.
Proof.
  revert i; induction s as [|a s IH]; intros i Hs; [done |].
  apply not_elem_of_cons in Hs as [Ha Hs].
  cbn [JS.indexOf_from]. rewrite startsWith_char.
  destruct (Ascii.eqb_spec a LF) as [->|_]; [done | by apply IH].
Qed.

Lemma first_line_break l rest :
  LF ∉ l →
  JS.substring (l ++ LF :: rest) 0 (JS.indexOf (l ++ LF :: rest) [LF]) = l.
Proof.
  intros Hl. unfold JS.indexOf. rewrite indexOf_from_found by done.
  unfold JS.substring, JS.clamp. rewrite length_app. simpl length.
  replace (Z.to_nat (Z.min (Z.max 0 0) _)) with 0 by lia.
  replace (Z.to_nat (Z.min (Z.max (0 + Z.of_nat (length l)) 0) _))
    with (length l) by lia.
  rewrite Nat.min_0_l, Nat.max_0_l, Nat.sub_0_r, drop_0.
  by rewrite take_app_length.
Qed.

Lemma first_line_no_break s :
  LF ∉ s → JS.substring s 0 (JS.indexOf s [LF]) = [].
Proof.
  intros Hs. unfold JS.indexOf. rewrite indexOf_from_absent by done.
  unfold JS.substring, JS.clamp.
  replace (Z.to_nat (Z.min (Z.max 0 0) _)) with 0 by lia.
  replace (Z.to_nat (Z.min (Z.max (-1) 0) _)) with 0 by lia.
  done.
Qed.

Lemma split_nonempty sep s : JS.split sep s ≠ [].
Proof.
  destruct s as [|a s]; simpl; [done |].
  destruct (Ascii.eqb a sep); [done |]. by destruct (JS.split sep s).
Qed.

Lemma split_no_sep sep l : sep ∉ l → JS.split sep l = [l].
Proof.
  induction l as [|a l IH]; intros Hl; [done |].
  apply not_elem_of_cons in Hl as [Ha Hl]. simpl.
  destruct (Ascii.eqb_spec a sep) as [->|_]; [done |]. by rewrite IH.
Qed.

Lemma split_app sep l rest :
  sep ∉ l → JS.split sep (l ++ sep :: rest) = l :: JS.split sep rest.
Proof.
  induction l as [|a l IH]; intros Hl.
  - simpl. by rewrite Ascii.eqb_refl.
  - apply not_elem_of_cons in Hl as [Ha Hl]. simpl.
    destruct (Ascii.eqb_spec a sep) as [->|_]; [done |]. by rewrite IH.
Qed.

Lemma uint_digits_inj d d' : JS.uint_digits d = JS.uint_digits d' → d = d'.
Proof.
  revert d'; induction d; intros []; simpl; intros H; try discriminate;
    try done; f_equal; apply IHd; congruence.
Qed.

Lemma toString_inj n n' : JS.toString n = JS.toString n' → n = n'.
Proof.
  intros H. by apply DecimalNat.Unsigned.to_uint_inj, uint_digits_inj.
Qed.

Lemma uint_digits_is_digit d : Forall (λ a, JS.is_digit a = true) (JS.uint_digits d).
Proof. induction d; simpl; by constructor. Qed.

Lemma toString_no_comma n : "," ∉ JS.toString n.
Proof.
  intros Hin. pose proof (uint_digits_is_digit (Nat.to_uint n)) as Hd.
  rewrite Forall_forall in Hd. by apply Hd in Hin.
Qed.

Lemma app_sep_inj {A} (x : A) l1 l2 k1 k2 :
  x ∉ l1 → x ∉ k1 → l1 ++ x :: l2 = k1 ++ x :: k2 → l1 = k1 ∧ l2 = k2.
Proof.
  revert k1; induction l1 as [|a l1 IH]; intros [|b k1] Hl Hk Heq; simplify_eq/=.
  - done.
  - by apply not_elem_of_cons in Hk as [? _].
  - by apply not_elem_of_cons in Hl as [? _].
  - apply not_elem_of_cons in Hl as [_ Hl]. apply not_elem_of_cons in Hk as [_ Hk].
    destruct (IH k1 Hl Hk) as [-> ->]; done.
Qed.

Lemma stack_key_inj f p f' p' :
  stack_key f p = stack_key f' p' → f = f' ∧ p = p'.
Proof.
  unfold stack_key. destruct p as [p|], p' as [p'|]; intros H.
  - apply app_sep_inj in H as [Hf Hp]; [| apply toString_no_comma ..].
    apply toString_inj in Hf, Hp. by subst.
  - exfalso. apply (toString_no_comma f'). rewrite <- H.
    apply elem_of_app. right. by left.
  - exfalso. apply (toString_no_comma f). rewrite H.
    apply elem_of_app. right. by left.
  - by apply toString_inj in H as ->.
Qed.

(** ** The backtracking engine *)

Lemma bind_ext_elem {A B} (f g : A → list B) (l : list A) :
  (∀ x, x ∈ l → f x = g x) → l ≫= f = l ≫= g.
Proof.
  induction l as [|x l IH]; intros H; [done |].
  rewrite !bind_cons, H, IH; [done | | by left].
  intros y Hy. apply H. by right.
Qed.

Lemma bind_eq_nil {A B} (f : A → list B) (l : list A) :
  l ≫= f = [] ↔ ∀ x, x ∈ l → f x = [].
Proof.
  induction l as [|x l IH].
  - split; [intros _ y Hy; by apply elem_of_nil in Hy | done].
  - rewrite bind_cons. split.
    + intros [Hx Hl]%app_eq_nil y [->|Hy]%elem_of_cons; [done |].
      by apply IH.
    + intros H. rewrite H by (by left). apply IH. intros y Hy. apply H. by right.
Qed.

Lemma bind_assoc {A B C} (f : A → list B) (g : B → list C) (l : list A) :
  (l ≫= f) ≫= g = l ≫= (λ x, f x ≫= g).
Proof.
  induction l as [|x l IH]; [done |].
  by rewrite !bind_cons, bind_app, IH.
Qed.

Section engine.
Implicit Types (r : regex) (s : jsstr) (c : caps).

Lemma outs_Cat r1 r2 s c :
  outs (Cat r1 r2) s c = outs r1 s c ≫= (λ o, outs r2 o.1 o.2).
Proof. done. Qed.

Lemma outs_Group n r s c :
  outs (Group n r) s c = set_group n s <$> outs r s c.
Proof. done. Qed.

Lemma outs_Chr_cons p a s c :
  outs (Chr p) (a :: s) c = if p a then [(s, c)] else [].
Proof. done. Qed.

Lemma outs_Chr_nil p c : outs (Chr p) [] c = [].
Proof. done. Qed.

Lemma star_iter_fuel body fuel1 fuel2 s c :
  length s ≤ fuel1 → length s ≤ fuel2 →
  star_iter body fuel1 s c = star_iter body fuel2 s c.
Proof.
  revert fuel2 s c. induction fuel1 as [|fuel1 IH]; intros fuel2 s c H1 H2.
  - destruct s; [| simpl in H1; lia]. destruct fuel2 as [|fuel2]; [done |].
    simpl. replace (_ ≫= _) with (@nil (jsstr * caps)); [done |].
    symmetry. apply bind_eq_nil. intros o _. done.
  - destruct fuel2 as [|fuel2].
    + destruct s; [| simpl in H2; lia]. simpl.
      replace (_ ≫= _) with (@nil (jsstr * caps)); [done |].
      symmetry. apply bind_eq_nil. intros o _. done.
    + simpl. f_equal. apply list_bind_ext; [| done]. intros o.
      destruct (Nat.ltb_spec (length o.1) (length s)); [| done].
      apply IH; lia.
Qed.

Lemma outs_Star_unfold r s c :
  outs (Star r) s c =
    (o ← outs r s (reset (groups r) c);
     if (length o.1 <? length s)%nat then outs (Star r) o.1 o.2 else [])
    ++ [(s, c)].
Proof.
  cbn [outs]. destruct s as [|a s].
  - simpl. symmetry. replace (_ ≫= _) with (@nil (jsstr * caps)); [done |].
    symmetry. apply bind_eq_nil. intros o _. done.
  - cbn [length star_iter]. f_equal. apply list_bind_ext; [| done]. intros o.
    destruct (Nat.ltb_spec (length o.1) (S (length s))); [| done].
    apply star_iter_fuel; lia.
Qed.

End engine.

(** ** The patterns of the program *)

Section patterns.
Implicit Types (r : regex) (s w v : jsstr) (c : caps).

Lemma outs_star_chr_nil p c : outs (Star (Chr p)) [] c = [([], c)].
Proof. done. Qed.

Lemma outs_star_chr_cons p a s c :
  outs (Star (Chr p)) (a :: s) c =
    if p a then outs (Star (Chr p)) s c ++ [(a :: s, c)] else [(a :: s, c)].
Proof.
  rewrite outs_Star_unfold, outs_Chr_cons. cbn [groups reset foldr].
  destruct (p a); [| done].
  rewrite bind_singleton. cbn [fst snd length].
  destruct (Nat.ltb_spec (length s) (S (length s))); [done | lia].
Qed.

Lemma outs_star_chr p s c :
  outs (Star (Chr p)) s c = (λ w, (w, c)) <$> class_tails p s.
Proof.
  induction s as [|a s IH]; [done |].
  rewrite outs_star_chr_cons. cbn [class_tails]. destruct (p a); [| done].
  by rewrite fmap_app, IH.
Qed.

Lemma class_tails_length p s w : w ∈ class_tails p s → length w ≤ length s.
Proof.
  induction s as [|a s IH]; simpl.
  - by intros ->%list_elem_of_singleton.
  - destruct (p a).
    + intros [Hw | ->%list_elem_of_singleton]%elem_of_app; [| done].
      apply IH in Hw. simpl. lia.
    + by intros ->%list_elem_of_singleton.
Qed.

Lemma outs_segment_cons g a s c :
  outs (segment_re g) (a :: s) c =
    if Ascii.eqb ";" a
    then (λ w, (w, <[g := take (S (length s) - length w) (a :: s)]> c))
           <$> class_tails (λ a, negb (Ascii.eqb a ";")) s
    else [].
Proof.
  unfold segment_re, lit. rewrite outs_Group, outs_Cat, outs_Chr_cons.
  destruct (Ascii.eqb ";" a); [| done].
  rewrite bind_singleton. cbn [fst snd]. unfold not_semicolon.
  rewrite outs_star_chr, <- list_fmap_compose. done.
Qed.

Lemma outs_segments_stop g s c :
  match s with a :: _ => Ascii.eqb ";" a = false | [] => True end →
  outs (Star (segment_re g)) s c = [(s, c)].
Proof.
  intros Hs. rewrite outs_Star_unfold. destruct s as [|a s]; [done |].
  rewrite outs_segment_cons, Hs. done.
Qed.

Lemma path_tails g s (f : jsstr → caps) :
  (((λ w, (w, f w)) <$> class_tails (λ a, negb (Ascii.eqb a ";")) s)
     ≫= (λ o, outs (Star (segment_re g)) o.1 o.2)).*1 = suffixes s.
Proof.
  revert f. induction s as [|a s IH]; intros f.
  - done.
  - cbn [class_tails suffixes].
    destruct (Ascii.eqb_spec a ";") as [-> | Ha]; cbn [negb].
    + rewrite list_fmap_singleton, bind_singleton. cbn [fst snd].
      rewrite outs_Star_unfold, outs_segment_cons. cbn [Ascii.eqb Bool.eqb].
      rewrite fmap_app. f_equal.
      rewrite <- (IH (λ w, <[g := take (S (length s) - length w) (";" :: s)]>
                            (reset (groups (segment_re g)) (f (";" :: s))))).
      f_equal. apply bind_ext_elem. intros o Ho.
      apply list_elem_of_fmap in Ho as (w & -> & Hw). cbn [fst snd length].
      apply class_tails_length in Hw.
      destruct (Nat.ltb_spec (length w) (S (length s))); [done | lia].
    + rewrite fmap_app, bind_app, fmap_app, IH. f_equal.
      rewrite list_fmap_singleton, bind_singleton. cbn [fst snd].
      rewrite outs_segments_stop; [done |].
      destruct (Ascii.eqb_spec ";" a); [by subst | done].
Qed.

(** The frame path can stop at every position; the longest paths are
    tried first. *)
Lemma outs_path_re g s c : (outs (path_re g) s c).*1 = suffixes s.
Proof.
  unfold path_re. rewrite outs_Cat. fold (segment_re g). unfold not_semicolon.
  rewrite outs_star_chr. apply (path_tails g s (λ _, c)).
Qed.

Lemma outs_plus_digit v c :
  outs (Plus digit) v c =
    match v with
    | d :: v' => if JS.is_digit d then outs (Star digit) v' c else []
    | [] => []
    end.
Proof.
  unfold Plus, digit. rewrite outs_Cat. destruct v as [|d v]; [done |].
  rewrite outs_Chr_cons.
  destruct (JS.is_digit d); [| done]. by rewrite bind_singleton.
Qed.

Lemma head_star_digit s c :
  head (outs (Star digit) s c) = Some (drop (length (leading_digits s)) s, c).
Proof.
  unfold digit. induction s as [|a s IH]; [done |].
  rewrite outs_star_chr_cons. cbn [leading_digits].
  destruct (JS.is_digit a); [| done].
  cbn [length drop]. destruct (outs (Star (Chr JS.is_digit)) s c); [done |]. done.
Qed.

Lemma after_path_eq D w c :
  after_path D (w, c) = match w with " " :: v => outs D v c | _ => [] end.
Proof.
  unfold after_path, lit. cbn [fst snd]. destruct w as [|a w]; [done |].
  rewrite outs_Chr_cons.
  destruct (Ascii.eqb_spec " " a) as [<- | Ha].
  - by rewrite bind_singleton.
  - destruct a as [[] [] [] [] [] [] [] []]; done.
Qed.

Lemma outs_plus_digit_nil w c :
  after_path (Plus digit) (w, c) = [] ↔ space_digit w = false.
Proof.
  rewrite after_path_eq. destruct w as [|a w]; [done |].
  destruct a as [[] [] [] [] [] [] [] []]; try (by split).
  rewrite outs_plus_digit. cbn [space_digit]. destruct w as [|d w]; [done |].
  destruct (JS.is_digit d); [| done].
  pose proof (head_star_digit w c) as Hh.
  destruct (outs (Star digit) w c); [done | by split].
Qed.

Lemma has_weight_suffixes s :
  has_weight s = false ↔ ∀ w, w ∈ suffixes s → space_digit w = false.
Proof.
  induction s as [|a s IH].
  - simpl. split; [by intros _ w ->%list_elem_of_singleton | done].
  - cbn [has_weight suffixes]. rewrite orb_false_iff, IH. split.
    + intros [Ha Hs] w [Hw | ->%list_elem_of_singleton]%elem_of_app; auto.
    + intros H. split; [apply H, elem_of_app; right; by left |].
      intros w Hw. apply H, elem_of_app. by left.
Qed.

Lemma has_weight_spec s :
  has_weight s = true ↔
  ∃ u d v, s = u ++ " " :: d :: v ∧ JS.is_digit d = true.
Proof.
  induction s as [|a s IH].
  - simpl. split; [done |]. intros (u & d & v & Hs & _). by destruct u.
  - cbn [has_weight]. rewrite orb_true_iff, IH. split.
    + intros [Hsd | (u & d & v & -> & Hd)].
      * destruct a as [[] [] [] [] [] [] [] []]; try done.
        destruct s as [|d v]; [done |]. by exists [], d, v.
      * by exists (a :: u), d, v.
    + intros (u & d & v & Hs & Hd). destruct u as [|b u]; simplify_eq/=.
      * by left.
      * right. by exists u, d, v.
Qed.
End patterns.

(** ** Which match the engine reports *)

Section matching.
Implicit Types (r : regex) (s w v : jsstr) (c : caps).

Lemma after_path_group_nil n D w c :
  after_path (Group n D) (w, c) = [] ↔ after_path D (w, c) = [].
Proof.
  rewrite !after_path_eq. destruct w as [|a w]; [done |].
  destruct a as [[] [] [] [] [] [] [] []]; try done.
  rewrite outs_Group. split; [apply fmap_nil_inv | by intros ->].
Qed.

Lemma set_group_fst n s (l : list (jsstr * caps)) :
  (set_group n s <$> l).*1 = l.*1.
Proof. rewrite <- list_fmap_compose. by apply list_fmap_ext. Qed.

Lemma outs_weight_shape A D s c :
  outs (Cat (Cat A (lit " ")) D) s c = outs A s c ≫= after_path D.
Proof. by rewrite !outs_Cat, bind_assoc. Qed.

(** A frame path, a space and a digit pattern match somewhere from the
    start of [s] exactly when [s] has a space followed by a digit. *)
Lemma weight_outs_nil A D s c :
  (outs A s c).*1 = suffixes s →
  (∀ w c', after_path D (w, c') = [] ↔ space_digit w = false) →
  outs (Cat (Cat A (lit " ")) D) s c = [] ↔ has_weight s = false.
Proof.
  intros HA HD. rewrite outs_weight_shape.
  rewrite bind_eq_nil, has_weight_suffixes, <- HA. split.
  - intros H w ([w' c'] & -> & Ho)%list_elem_of_fmap. apply (HD w' c'), H, Ho.
  - intros H [w c'] Ho. apply HD, H, list_elem_of_fmap. by exists (w, c').
Qed.

Lemma outs_detect_re_nil s c : outs detect_re s c = [] ↔ has_weight s = false.
Proof.
  apply weight_outs_nil; [apply outs_path_re | apply outs_plus_digit_nil].
Qed.

Lemma outs_line_re_nil s c : outs line_re s c = [] ↔ has_weight s = false.
Proof.
  apply weight_outs_nil.
  - rewrite outs_Group, set_group_fst. apply outs_path_re.
  - intros w c'. rewrite after_path_group_nil. apply outs_plus_digit_nil.
Qed.

Lemma has_weight_tail a s : has_weight (a :: s) = false → has_weight s = false.
Proof. cbn [has_weight]. by intros [_ ?]%orb_false_iff. Qed.

Section exec.
Variable R : regex.
Hypothesis R_nil : ∀ s c, outs R s c = [] ↔ has_weight s = false.

Lemma exec_from_None i s : has_weight s = false → exec_from R i s = None.
Proof.
  revert i. induction s as [|a s IH]; intros i Hs.
  - cbn [exec_from]. rewrite outs_Group.
    apply (R_nil _ ∅) in Hs as ->. done.
  - cbn [exec_from]. rewrite outs_Group.
    pose proof Hs as Hs'. apply (R_nil _ ∅) in Hs' as ->. cbn [fmap list_fmap].
    apply IH. by eapply has_weight_tail.
Qed.

Lemma exec_from_Some i s :
  has_weight s = true →
  ∃ o l, outs R s ∅ = o :: l ∧
         exec_from R i s = Some (i, o.1, <[0 := take (length s - length o.1) s]> o.2).
Proof.
  intros Hs. destruct (outs R s ∅) as [|o l] eqn:Ho.
  - apply R_nil in Ho. congruence.
  - exists o, l. split; [done |].
    destruct s; cbn [exec_from]; rewrite outs_Group, Ho; done.
Qed.

Lemma match_None_iff s : match_ s R = None ↔ has_weight s = false.
Proof.
  unfold match_, exec. split.
  - intros H. destruct (has_weight s) eqn:Hs; [| done].
    destruct (exec_from_Some 0 s Hs) as (o & l & _ & He).
    rewrite He in H. done.
  - intros Hs. by rewrite exec_from_None.
Qed.
End exec.

Lemma suffixes_app u w : ∃ L, suffixes (u ++ w) = suffixes w ++ L.
Proof.
  induction u as [|a u [L IH]]; [exists []; by rewrite app_nil_r |].
  exists (L ++ [a :: u ++ w]). simpl. by rewrite IH, app_assoc.
Qed.

Lemma take_leading_digits s : take (length (leading_digits s)) s = leading_digits s.
Proof.
  induction s as [|a s IH]; [done |]. simpl.
  destruct (JS.is_digit a); [| done]. simpl. by rewrite IH.
Qed.

Lemma leading_digits_length s : length (leading_digits s) ≤ length s.
Proof.
  induction s as [|a s IH]; [done |]. simpl.
  destruct (JS.is_digit a); simpl; lia.
Qed.

(** The match the engine reports on a line: the frame path runs up to the
    last space that is followed by a digit, and the weight is the whole run
    of digits after that space. *)
Lemma outs_line_re_head frames v c :
  space_digit (" " :: v) = true → has_weight v = false →
  ∃ o l, outs line_re (frames ++ " " :: v) c = o :: l ∧
         o.2 !! 1 = Some frames ∧ o.2 !! 3 = Some (leading_digits v).
Proof.
  intros Hsd Hv. set (s := frames ++ " " :: v).
  unfold line_re. rewrite outs_weight_shape, outs_Group.
  pose proof (outs_path_re 2 s c) as Hp.
  destruct (suffixes_app frames (" " :: v)) as [L HL]. fold s in HL.
  rewrite HL in Hp. cbn [suffixes] in Hp. rewrite <- app_assoc in Hp.
  apply fmap_app_inv in Hp as (la & lb & Hla & Hlb & ->).
  cbn [app] in Hlb. symmetry in Hlb. apply fmap_cons_inv in Hlb as ([w c1] & lb' & Hw & _ & ->).
  cbn [fst] in Hw. subst w.
  rewrite fmap_app, bind_app, fmap_cons, bind_cons.
  replace ((set_group 1 s <$> la) ≫= _) with (@nil (jsstr * caps)); last first.
  { symmetry. apply bind_eq_nil. intros x ([w c2] & -> & Hx)%list_elem_of_fmap.
    unfold set_group. cbn [fst snd].
    apply after_path_group_nil, outs_plus_digit_nil.
    rewrite has_weight_suffixes in Hv. apply Hv. rewrite Hla.
    apply list_elem_of_fmap. by exists (w, c2). }
  unfold set_group at 1. cbn [fst snd app].
  rewrite after_path_eq, outs_Group, outs_plus_digit.
  destruct v as [|d v]; [done |]. cbn [space_digit] in Hsd. rewrite Hsd.
  pose proof (head_star_digit v (<[1:=take (length s - length (" " :: d :: v)) s]> c1))
    as Hh.
  destruct (outs (Star digit) v _) as [|x l] eqn:Hx; [done |].
  cbn [head] in Hh. simplify_eq. eexists _, _. split; [done |].
  unfold set_group. cbn [fst snd]. split.
  - rewrite lookup_insert_ne, lookup_insert_eq by done. f_equal.
    subst s. rewrite length_app.
    replace (_ + _ - _) with (length frames) by lia.
    by rewrite take_app_length.
  - rewrite lookup_insert_eq. f_equal. cbn [leading_digits]. rewrite Hsd.
    rewrite length_drop. pose proof (leading_digits_length v).
    replace (length (d :: v) - _) with (S (length (leading_digits v)))
      by (simpl; lia).
    cbn [take]. by rewrite take_leading_digits.
Qed.

Lemma has_weight_app frames v :
  space_digit (" " :: v) = true → has_weight (frames ++ " " :: v) = true.
Proof.
  intros Hsd. apply has_weight_spec. destruct v as [|d v]; [done |].
  by exists frames, d, v.
Qed.

Lemma match_line_re frames v :
  space_digit (" " :: v) = true → has_weight v = false →
  ∃ m, match_ (frames ++ " " :: v) line_re = Some m ∧
       m !! 1 = Some frames ∧ m !! 3 = Some (leading_digits v).
Proof.
  intros Hsd Hv.
  destruct (outs_line_re_head frames v ∅ Hsd Hv) as (o & l & Ho & H1 & H3).
  destruct (exec_from_Some line_re outs_line_re_nil 0 _ (has_weight_app frames v Hsd))
    as (o' & l' & Ho' & He).
  rewrite Ho in Ho'. simplify_eq. unfold match_, exec. rewrite He.
  eexists. split; [done |]. cbn [snd]. by rewrite !lookup_insert_ne by done.
Qed.

Lemma outs_plus_digit_caps v c o : o ∈ outs (Plus digit) v c → o.2 = c.
Proof.
  rewrite outs_plus_digit. destruct v as [|d v]; [by intros ?%elem_of_nil |].
  destruct (JS.is_digit d); [| by intros ?%elem_of_nil].
  unfold digit. rewrite outs_star_chr.
  by intros (w & -> & _)%list_elem_of_fmap.
Qed.

Lemma outs_line_re_groups s c o :
  o ∈ outs line_re s c → is_Some (o.2 !! 1) ∧ is_Some (o.2 !! 3).
Proof.
  unfold line_re. rewrite outs_weight_shape, outs_Group.
  intros ([w c1] & Ho & Hx)%list_elem_of_bind.
  apply list_elem_of_fmap in Hx as ([w0 c0] & Heq & _).
  unfold set_group in Heq. cbn [fst snd] in Heq. simplify_eq.
  rewrite after_path_eq in Ho. destruct w0 as [|a v]; [by apply elem_of_nil in Ho |].
  destruct a as [[] [] [] [] [] [] [] []]; try (by apply elem_of_nil in Ho).
  rewrite outs_Group in Ho. apply list_elem_of_fmap in Ho as (y & -> & Hy).
  apply outs_plus_digit_caps in Hy. unfold set_group. cbn [fst snd]. rewrite Hy.
  rewrite lookup_insert_ne, !lookup_insert_eq by done. eauto.
Qed.

Lemma exec_from_outs R i s x :
  exec_from R i s = Some x →
  ∃ s' o, o ∈ outs R s' ∅ ∧ x.2 = <[0 := take (length s' - length o.1) s']> o.2.
Proof.
  revert i. induction s as [|a s IH]; intros i; cbn [exec_from];
    rewrite outs_Group; destruct (outs R _ ∅) as [|o l] eqn:Ho;
    cbn [fmap list_fmap]; try done.
  - intros [= <-]. eexists _, o. split; [rewrite Ho; by left | done].
  - apply IH.
  - intros [= <-]. eexists _, o. split; [rewrite Ho; by left | done].
Qed.

(** Groups 1 and 3 are set in every match of the line pattern. *)
Lemma match_line_groups line m :
  match_ line line_re = Some m → is_Some (m !! 1) ∧ is_Some (m !! 3).
Proof.
  unfold match_, exec. destruct (exec_from line_re 0 line) as [x|] eqn:Hx; [| done].
  intros [= <-]. apply exec_from_outs in Hx as (s' & o & Ho & ->).
  rewrite !lookup_insert_ne by done. by eapply outs_line_re_groups.
Qed.
End matching.

(** ** The Java marker and the detector *)

Section java_suffix.
Implicit Types (s base : jsstr) (c : caps).

Lemma outs_lit_cat a r s c :
  outs (Cat (lit a) r) s c =
    match s with
    | b :: s' => if Ascii.eqb a b then outs r s' c else []
    | [] => []
    end.
Proof.
  rewrite outs_Cat. unfold lit. destruct s as [|b s]; [done |].
  rewrite outs_Chr_cons. destruct (Ascii.eqb a b); [| done].
  by rewrite bind_singleton.
Qed.

Lemma outs_java_suffix_re s c :
  outs java_suffix_re s c = if decide (s = java_marker) then [([], c)] else [].
Proof.
  assert (outs java_suffix_re s c =
          outs (Cat (lit "_") (Cat (lit "[") (Cat (lit "j") (Cat (lit "]") Eol)))) s c)
    as ->.
  { unfold java_suffix_re. by rewrite !outs_Cat, !bind_assoc. }
  rewrite outs_lit_cat. destruct s as [|a1 s]; [done |].
  destruct (Ascii.eqb_spec "_" a1) as [<- | H1];
    [| rewrite decide_False; [done | intros [=]; congruence]].
  rewrite outs_lit_cat. destruct s as [|a2 s]; [done |].
  destruct (Ascii.eqb_spec "[" a2) as [<- | H2];
    [| rewrite decide_False; [done | intros [=]; congruence]].
  rewrite outs_lit_cat. destruct s as [|a3 s]; [done |].
  destruct (Ascii.eqb_spec "j" a3) as [<- | H3];
    [| rewrite decide_False; [done | intros [=]; congruence]].
  rewrite outs_lit_cat. destruct s as [|a4 s]; [done |].
  destruct (Ascii.eqb_spec "]" a4) as [<- | H4];
    [| rewrite decide_False; [done | intros [=]; congruence]].
  destruct s; done.
Qed.

Lemma exec_java_marker i base :
  ∃ m, exec_from java_suffix_re i (base ++ java_marker)
       = Some (i + length base, [], m).
Proof.
  revert i. induction base as [|a base IH]; intros i.
  - eexists. cbn [app]. unfold java_marker at 1, str. cbn [list_ascii_of_string exec_from].
    rewrite outs_Group, outs_java_suffix_re. rewrite decide_True by done.
    cbn [fmap list_fmap set_group fst snd length]. by rewrite Nat.add_0_r.
  - destruct (IH (S i)) as [m Hm]. exists m.
    change ((a :: base) ++ java_marker) with (a :: (base ++ java_marker)).
    cbn [exec_from]. rewrite outs_Group, outs_java_suffix_re.
    rewrite decide_False.
    + cbn [fmap list_fmap]. rewrite Hm. do 3 f_equal. simpl. lia.
    + intros H%(f_equal length). rewrite length_cons, length_app in H.
      simpl in H. lia.
Qed.

Lemma endsWith_cons a s p :
  a :: s ≠ p → JS.endsWith (a :: s) p = JS.endsWith s p.
Proof.
  intros Hne. apply eq_true_iff_eq. rewrite !endsWith_spec. split.
  - intros [[|b t] Ht]; [done |]. simplify_eq/=. eauto.
  - intros [t ->]. by exists (a :: t).
Qed.

Lemma exec_java_other i s :
  JS.endsWith s java_marker = false → exec_from java_suffix_re i s = None.
Proof.
  revert i. induction s as [|a s IH]; intros i Hs.
  - done.
  - cbn [exec_from]. rewrite outs_Group, outs_java_suffix_re.
    destruct (decide (a :: s = java_marker)) as [Heq | Hne].
    + rewrite Heq in Hs. done.
    + cbn [fmap list_fmap]. apply IH. by rewrite <- (endsWith_cons a).
Qed.

(** [replace] with the Java-marker pattern removes a trailing marker and
    changes nothing else. *)
Lemma replace_java_suffix s :
  replace_empty s java_suffix_re = stored_label s.
Proof.
  unfold replace_empty, stored_label, exec.
  destruct (JS.endsWith s java_marker) eqn:Hs.
  - apply endsWith_spec in Hs as [base ->].
    destruct (exec_java_marker 0 base) as [m ->]. cbn [Nat.add].
    rewrite length_app, app_nil_r. simpl length.
    replace (length base + 4 - 4) with (length base) by lia. done.
  - by rewrite exec_java_other.
Qed.

Lemma stored_label_marker base : stored_label (base ++ java_marker) = base.
Proof.
  unfold stored_label. replace (JS.endsWith _ _) with true.
  - rewrite length_app. simpl length.
    replace (length base + 4 - 4) with (length base) by lia.
    by rewrite take_app_length.
  - symmetry. apply endsWith_spec. eauto.
Qed.

Lemma stored_label_other s :
  JS.endsWith s java_marker = false → stored_label s = s.
Proof. unfold stored_label. by intros ->. Qed.
End java_suffix.

Section detector.
Lemma detector_match s :
  bool_decide (is_Some (match_ s detect_re)) = has_weight s.
Proof.
  destruct (has_weight s) eqn:Hs.
  - apply bool_decide_eq_true. apply not_eq_None_Some. intros H.
    apply (match_None_iff detect_re outs_detect_re_nil) in H. congruence.
  - apply bool_decide_eq_false. intros H%not_eq_None_Some. apply H.
    by apply (match_None_iff detect_re outs_detect_re_nil).
Qed.

Lemma startsWith_brace a s :
  JS.startsWith (a :: s) (str "{") = Ascii.eqb a "{".
Proof. apply startsWith_char. Qed.

Lemma detector_first_line line rest :
  LF ∉ line → JS.startsWith line (str "{") = false →
  isFlameGraphFormat (line ++ LF :: rest) = has_weight line.
Proof.
  intros Hlf Hb. unfold isFlameGraphFormat.
  replace (JS.startsWith (line ++ LF :: rest) (str "{")) with false.
  - rewrite first_line_break by done. apply detector_match.
  - destruct line as [|a line]; [reflexivity |].
    rewrite <- app_comm_cons. by rewrite startsWith_brace in *.
Qed.

Lemma detector_no_line_break text :
  LF ∉ text → isFlameGraphFormat text = false.
Proof.
  intros Hlf. unfold isFlameGraphFormat.
  destruct (JS.startsWith text (str "{")); [done |].
  by rewrite first_line_no_break.
Qed.

Lemma has_weight_no_digit s :
  Forall (λ a, JS.is_digit a = false) s → has_weight s = false.
Proof.
  intros Hs. destruct (has_weight s) eqn:Hw; [| done].
  apply has_weight_spec in Hw as (u & d & v & -> & Hd).
  rewrite Forall_app, Forall_cons, Forall_cons in Hs.
  destruct Hs as (_ & _ & Hd' & _). congruence.
Qed.
End detector.

(** ** Interning of frames and stacks *)

Section interning.
Implicit Types (th : thread) (raws : list jsstr) (l : jsstr).

Lemma thread_inv_init : thread_inv [] createThread.
Proof.
  constructor; cbn.
  - intros l i. by rewrite lookup_empty, lookup_nil.
  - done.
  - done.
  - intros k i. rewrite lookup_empty. split; [done |].
    intros (row & Hrow & _). by rewrite lookup_nil in Hrow.
  - intros i row. by rewrite lookup_nil.
  - intros row Hrow. by apply elem_of_nil in Hrow.
Qed.

Lemma inv_frame_count raws th :
  thread_inv raws th →
  length (frameTable th) = length raws ∧ length (stringTable th) = length raws.
Proof.
  intros Hinv. rewrite (inv_frameTable _ _ Hinv), (inv_stringTable _ _ Hinv).
  by rewrite length_imap, length_fmap.
Qed.

Lemma inv_raws_NoDup raws th : thread_inv raws th → NoDup raws.
Proof.
  intros Hinv. apply NoDup_alt. intros i j l Hi Hj.
  apply (inv_frameMap _ _ Hinv) in Hi, Hj. congruence.
Qed.

Lemma inv_stackTable_NoDup raws th : thread_inv raws th → NoDup (stackTable th).
Proof.
  intros Hinv. apply NoDup_alt. intros i j row Hi Hj.
  assert (stackMap th !! stack_key (sk_frame row) (sk_prefix row) = Some i) as Hki
    by (apply (inv_stackMap _ _ Hinv); eauto).
  assert (stackMap th !! stack_key (sk_frame row) (sk_prefix row) = Some j) as Hkj
    by (apply (inv_stackMap _ _ Hinv); eauto).
  congruence.
Qed.

Lemma note_label_old raws l : l ∈ raws → note_label raws l = raws.
Proof. intros. unfold note_label. by rewrite decide_True. Qed.

Lemma note_label_new raws l : l ∉ raws → note_label raws l = raws ++ [l].
Proof. intros. unfold note_label. by rewrite decide_False. Qed.

Lemma getOrCreateFrame_hit l th f :
  frameMap th !! l = Some f → getOrCreateFrame l th = (f, th).
Proof. unfold getOrCreateFrame. by intros ->. Qed.

Lemma getOrCreateFrame_miss l th :
  frameMap th !! l = None →
  getOrCreateFrame l th =
    (length (frameTable th),
     Thread (samples th)
       (frameTable th ++ [FrameRow (length (stringTable th)) (frame_category l)])
       (stackTable th)
       (stringTable th ++ [stored_label l])
       (stackMap th)
       (<[l := length (frameTable th)]> (frameMap th))).
Proof. unfold getOrCreateFrame. intros ->. by rewrite replace_java_suffix. Qed.

(** Interning a frame keeps the invariant, records the label as seen, and
    returns the position of the label in first-seen order. *)
Lemma getOrCreateFrame_inv raws th l :
  thread_inv raws th →
  thread_inv (note_label raws l) (getOrCreateFrame l th).2 ∧
  note_label raws l !! (getOrCreateFrame l th).1 = Some l.
Proof.
  intros Hinv. destruct (frameMap th !! l) as [f|] eqn:Hl.
  - rewrite (getOrCreateFrame_hit _ _ _ Hl). cbn [fst snd].
    apply (inv_frameMap _ _ Hinv) in Hl.
    rewrite note_label_old by (by eapply list_elem_of_lookup_2). done.
  - rewrite (getOrCreateFrame_miss _ _ Hl). cbn [fst snd].
    assert (l ∉ raws) as Hnew.
    { intros [i Hi]%list_elem_of_lookup.
      apply (inv_frameMap _ _ Hinv) in Hi. congruence. }
    rewrite note_label_new by done.
    destruct (inv_frame_count _ _ Hinv) as [Hfl Hsl]. rewrite Hfl, Hsl.
    split; [| by apply list_lookup_middle].
    constructor; cbn.
    + intros l' i. rewrite lookup_snoc_Some. destruct (decide (l = l')) as [<- | Hne].
      * rewrite lookup_insert_eq. split.
        -- intros [= <-]. by right.
        -- intros [[_ Hi] | [-> _]]; [| done].
           destruct Hnew. by eapply list_elem_of_lookup_2.
      * rewrite lookup_insert_ne by done. rewrite (inv_frameMap _ _ Hinv). split.
        -- intros Hi. left. split; [by eapply lookup_lt_Some | done].
        -- by intros [[_ Hi] | [_ ?]].
    + rewrite imap_app, (inv_frameTable _ _ Hinv). cbn. by rewrite Nat.add_0_r.
    + by rewrite fmap_app, (inv_stringTable _ _ Hinv).
    + apply (inv_stackMap _ _ Hinv).
    + intros i row Hrow. destruct (inv_stackTable _ _ Hinv i row Hrow) as [Hf Hp].
      split; [| done]. rewrite length_app. lia.
    + apply (inv_samples _ _ Hinv).
Qed.

Lemma getOrCreateFrame_stackTable l th :
  stackTable (getOrCreateFrame l th).2 = stackTable th.
Proof. unfold getOrCreateFrame. by destruct (frameMap th !! l). Qed.

Lemma getOrCreateFrame_samples l th :
  samples (getOrCreateFrame l th).2 = samples th.
Proof. unfold getOrCreateFrame. by destruct (frameMap th !! l). Qed.

Lemma getOrCreateStack_samples f p th :
  samples (getOrCreateStack f p th).2 = samples th.
Proof. unfold getOrCreateStack. by destruct (stackMap th !! _). Qed.

(** Interning a stack keeps the invariant and returns the row that holds
    exactly the requested prefix and frame. *)
Lemma getOrCreateStack_inv raws th f p :
  thread_inv raws th → f < length raws → valid_prefix p th →
  thread_inv raws (getOrCreateStack f p th).2 ∧
  stackTable (getOrCreateStack f p th).2 !! (getOrCreateStack f p th).1
    = Some (StackRow p f).
Proof.
  intros Hinv Hf Hp. unfold getOrCreateStack.
  destruct (stackMap th !! stack_key f p) as [s|] eqn:Hk; cbn [fst snd].
  - split; [done |].
    apply (inv_stackMap _ _ Hinv) in Hk as ([p' f'] & Hrow & Hkey).
    apply stack_key_inj in Hkey as [-> ->]. done.
  - split; [| by apply list_lookup_middle].
    constructor; cbn; try apply Hinv.
    + intros k i. setoid_rewrite lookup_snoc_Some.
      destruct (decide (stack_key f p = k)) as [<- | Hne].
      * rewrite lookup_insert_eq. split.
        -- intros [= <-]. exists (StackRow p f). split; [by right | done].
        -- intros (row & [[_ Hrow] | [-> _]] & Hkey); [| done].
           assert (stackMap th !! stack_key f p = Some i) as Hi
             by (apply (inv_stackMap _ _ Hinv); eauto).
           congruence.
      * rewrite lookup_insert_ne by done. rewrite (inv_stackMap _ _ Hinv). split.
        -- intros (row & Hrow & Hkey). exists row. split; [| done].
           left. split; [by eapply lookup_lt_Some | done].
        -- intros (row & [[_ Hrow] | [_ <-]] & Hkey); [eauto | done].
    + intros i row [[Hi Hrow] | [-> <-]]%lookup_snoc_Some.
      * apply (inv_stackTable _ _ Hinv _ _ Hrow).
      * split; [done |]. intros q Hq. by apply Hp.
    + intros row Hrow. destruct (inv_samples _ _ Hinv row Hrow) as (s & Hs & Hlt).
      exists s. split; [done |]. rewrite length_app. lia.
Qed.

(** The fold of [addSample]: labels are interned from left to right and
    the accumulator is the stack of the path read so far. *)
Lemma extend_stack_inv raws acc l :
  thread_inv raws acc.2 → valid_prefix acc.1 acc.2 →
  thread_inv (note_label raws l) (extend_stack acc l).2 ∧
  valid_prefix (extend_stack acc l).1 (extend_stack acc l).2 ∧
  is_Some (extend_stack acc l).1.
Proof.
  intros Hinv Hp. unfold extend_stack.
  destruct (getOrCreateFrame_inv raws acc.2 l Hinv) as [Hinv1 Hf].
  pose proof (getOrCreateFrame_stackTable l acc.2) as Hst.
  destruct (getOrCreateFrame l acc.2) as [f th1]. cbn [fst snd] in *.
  assert (valid_prefix acc.1 th1) as Hp1.
  { intros q Hq. rewrite Hst. by apply Hp. }
  destruct (getOrCreateStack_inv _ th1 f acc.1 Hinv1) as [Hinv2 Hs];
    [by eapply lookup_lt_Some | done |].
  destruct (getOrCreateStack f acc.1 th1) as [s th2]. cbn [fst snd] in *.
  split; [done |]. split; [| by eexists].
  intros q [= <-]. by eapply lookup_lt_Some.
Qed.

Lemma extend_stack_samples acc l :
  samples (extend_stack acc l).2 = samples acc.2.
Proof.
  unfold extend_stack.
  pose proof (getOrCreateFrame_samples l acc.2) as H1.
  destruct (getOrCreateFrame l acc.2) as [f th1].
  pose proof (getOrCreateStack_samples f acc.1 th1) as H2.
  destruct (getOrCreateStack f acc.1 th1) as [s th2]. cbn [fst snd] in *.
  congruence.
Qed.

Lemma foldl_extend_stack_inv raws acc ls :
  thread_inv raws acc.2 → valid_prefix acc.1 acc.2 →
  thread_inv (foldl note_label raws ls) (foldl extend_stack acc ls).2 ∧
  valid_prefix (foldl extend_stack acc ls).1 (foldl extend_stack acc ls).2 ∧
  (ls ≠ [] → is_Some (foldl extend_stack acc ls).1).
Proof.
  revert raws acc. induction ls as [|l ls IH]; intros raws acc Hinv Hp.
  - done.
  - cbn [foldl].
    destruct (extend_stack_inv raws acc l Hinv Hp) as (Hinv1 & Hp1 & Hsome).
    destruct (IH _ _ Hinv1 Hp1) as (Hinv2 & Hp2 & Hsome2).
    split; [done |]. split; [done |]. intros _.
    destruct ls as [|l' ls]; [done |]. by apply Hsome2.
Qed.

Lemma foldl_extend_stack_samples acc ls :
  samples (foldl extend_stack acc ls).2 = samples acc.2.
Proof.
  revert acc. induction ls as [|l ls IH]; intros acc; [done |].
  cbn [foldl]. by rewrite IH, extend_stack_samples.
Qed.

Lemma addSample_samples t ls th :
  ∃ stack, samples (addSample t ls th) = samples th ++ [SampleRow stack t 0].
Proof.
  unfold addSample.
  pose proof (foldl_extend_stack_samples (None, th) ls) as Hs.
  destruct (foldl extend_stack (None, th) ls) as [stack th']. cbn [fst snd] in *.
  exists stack. cbn. by rewrite Hs.
Qed.

Lemma addSample_inv raws t ls th :
  thread_inv raws th → ls ≠ [] →
  thread_inv (foldl note_label raws ls) (addSample t ls th).
Proof.
  intros Hinv Hne. unfold addSample.
  destruct (foldl_extend_stack_inv raws (None, th) ls Hinv) as (Hinv' & Hp & Hsome);
    [done |].
  destruct (foldl extend_stack (None, th) ls) as [stack th']. cbn [fst snd] in *.
  constructor; cbn; try apply Hinv'.
  intros row [Hrow | ->%list_elem_of_singleton]%elem_of_app.
  - by apply (inv_samples _ _ Hinv').
  - destruct (Hsome Hne) as [s ->]. exists s. split; [done |]. by apply Hp.
Qed.
End interning.

(** ** The loop over the lines *)

Section conversion.
Implicit Types (cv : conv) (raws : list jsstr) (line frames : jsstr).

Lemma emit_eq frames cv :
  emit frames cv =
    Conv (addSample (cv_timeStamp cv) (JS.split ";" frames) (cv_thread cv))
         (S (cv_timeStamp cv)) (cv_console cv).
Proof.
  unfold emit. rewrite bool_decide_eq_true_2; [done |].
  pose proof (split_nonempty ";" frames). by destruct (JS.split ";" frames).
Qed.

Lemma emit_inv raws frames cv :
  conv_inv raws cv →
  conv_inv (foldl note_label raws (JS.split ";" frames)) (emit frames cv).
Proof.
  intros [Hinv Ht]. rewrite emit_eq. split; cbn [cv_thread cv_timeStamp].
  - apply addSample_inv; [done | apply split_nonempty].
  - destruct (addSample_samples (cv_timeStamp cv) (JS.split ";" frames)
                (cv_thread cv)) as [stack ->].
    by rewrite fmap_app, Ht, seq_S.
Qed.

Lemma iter_emit_inv raws frames n cv :
  conv_inv raws cv →
  conv_inv (foldl note_label raws (mjoin (replicate n (JS.split ";" frames))))
           (Nat.iter n (emit frames) cv).
Proof.
  intros Hcv. induction n as [|n IH]; [done |].
  rewrite replicate_S_end, join_app, foldl_app. cbn [mjoin list_join].
  rewrite app_nil_r, Nat.iter_succ. by apply emit_inv.
Qed.

Lemma iter_emit_timeStamp frames n cv :
  cv_timeStamp (Nat.iter n (emit frames) cv) = cv_timeStamp cv + n.
Proof.
  induction n as [|n IH]; [cbn; lia |].
  rewrite Nat.iter_succ, emit_eq. cbn [cv_timeStamp]. lia.
Qed.

Lemma iter_emit_console frames n cv :
  cv_console (Nat.iter n (emit frames) cv) = cv_console cv.
Proof.
  induction n as [|n IH]; [done |].
  by rewrite Nat.iter_succ, emit_eq.
Qed.

Lemma iter_emit_samples frames n cv :
  length (samples (cv_thread (Nat.iter n (emit frames) cv)))
  = length (samples (cv_thread cv)) + n.
Proof.
  induction n as [|n IH]; [cbn; lia |].
  rewrite Nat.iter_succ, emit_eq. cbn [cv_thread].
  destruct (addSample_samples (cv_timeStamp (Nat.iter n (emit frames) cv))
              (JS.split ";" frames) (cv_thread (Nat.iter n (emit frames) cv)))
    as [stack ->].
  rewrite length_app. cbn [length]. lia.
Qed.

Lemma match_line_empty : match_ [] line_re = None.
Proof. by apply (match_None_iff line_re outs_line_re_nil). Qed.

Lemma process_line_eq cv line :
  process_line cv line =
    match line_frames line with
    | Some frames => Nat.iter (line_weight line) (emit frames) cv
    | None =>
        if decide (line = []) then cv
        else Conv (cv_thread cv) (cv_timeStamp cv) (cv_console cv ++ [line])
    end.
Proof.
  unfold process_line, line_frames, line_weight.
  destruct (decide (line = [])) as [-> | Hne].
  - by rewrite match_line_empty.
  - rewrite bool_decide_eq_false_2 by done. by destruct (match_ line line_re).
Qed.

Lemma process_line_inv raws cv line :
  conv_inv raws cv →
  conv_inv (foldl note_label raws (line_calls line)) (process_line cv line) ∧
  cv_timeStamp (process_line cv line) = cv_timeStamp cv + line_weight line.
Proof.
  intros Hcv. rewrite process_line_eq. unfold line_calls.
  destruct (line_frames line) as [frames|] eqn:Hf.
  - split; [by apply iter_emit_inv | apply iter_emit_timeStamp].
  - assert (line_weight line = 0) as ->.
    { unfold line_weight. unfold line_frames in Hf.
      by destruct (match_ line line_re). }
    rewrite Nat.add_0_r. by destruct (decide (line = [])).
Qed.

Lemma foldl_process_line_inv raws cv lines :
  conv_inv raws cv →
  conv_inv (foldl note_label raws (lines ≫= line_calls))
           (foldl process_line cv lines) ∧
  cv_timeStamp (foldl process_line cv lines)
  = cv_timeStamp cv + sum_list (line_weight <$> lines).
Proof.
  revert raws cv. induction lines as [|line lines IH]; intros raws cv Hcv.
  - cbn. split; [done | lia].
  - cbn [foldl]. rewrite bind_cons, foldl_app.
    destruct (process_line_inv raws cv line Hcv) as [Hcv1 Ht1].
    destruct (IH _ _ Hcv1) as [Hcv2 Ht2]. split; [done |].
    rewrite Ht2, Ht1. cbn. lia.
Qed.

Lemma conv_inv_init : conv_inv [] (Conv createThread 0 []).
Proof. split; [apply thread_inv_init | done]. Qed.

Lemma run_inv profile :
  conv_inv (first_seen (frame_calls profile)) (run profile) ∧
  cv_timeStamp (run profile) = total_weight profile.
Proof.
  destruct (foldl_process_line_inv [] _ (JS.split LF profile) conv_inv_init)
    as [Hcv Ht].
  split; [done |]. unfold run, run_lines. by rewrite Ht.
Qed.
End conversion.

Section more.
Implicit Types (th : thread) (cv : conv) (l line : jsstr).

Lemma getOrCreateFrame_frameMap l l' th f :
  frameMap th !! l = Some f → frameMap (getOrCreateFrame l' th).2 !! l = Some f.
Proof.
  intros Hl. unfold getOrCreateFrame.
  destruct (frameMap th !! l') eqn:Hl'; [done |]. cbn.
  rewrite lookup_insert_ne; [done | congruence].
Qed.

Lemma getOrCreateStack_frameMap f p th :
  frameMap (getOrCreateStack f p th).2 = frameMap th.
Proof. unfold getOrCreateStack. by destruct (stackMap th !! _). Qed.

Lemma extend_stack_frameMap acc l' l f :
  frameMap acc.2 !! l = Some f → frameMap (extend_stack acc l').2 !! l = Some f.
Proof.
  intros Hl. unfold extend_stack.
  pose proof (getOrCreateFrame_frameMap l l' acc.2 f Hl) as H1.
  destruct (getOrCreateFrame l' acc.2) as [f' th1].
  pose proof (getOrCreateStack_frameMap f' acc.1 th1) as H2.
  destruct (getOrCreateStack f' acc.1 th1) as [s th2]. cbn [fst snd] in *.
  by rewrite H2.
Qed.

Lemma addSample_frameMap t ls th l f :
  frameMap th !! l = Some f → frameMap (addSample t ls th) !! l = Some f.
Proof.
  intros Hl. unfold addSample.
  assert (∀ acc, frameMap acc.2 !! l = Some f →
                 frameMap (foldl extend_stack acc ls).2 !! l = Some f) as Hfold.
  { induction ls as [|l' ls IH]; intros acc Hacc; [done |].
    cbn [foldl]. by apply IH, extend_stack_frameMap. }
  specialize (Hfold (None, th) Hl).
  by destruct (foldl extend_stack (None, th) ls) as [stack th'].
Qed.

Lemma getOrCreateFrame_lookup l th :
  frameMap (getOrCreateFrame l th).2 !! l = Some (getOrCreateFrame l th).1.
Proof.
  unfold getOrCreateFrame. destruct (frameMap th !! l) eqn:Hl; [done |].
  cbn. by rewrite lookup_insert_eq.
Qed.

Lemma getOrCreateStack_lookup f p th :
  stackMap (getOrCreateStack f p th).2 !! stack_key f p
  = Some (getOrCreateStack f p th).1.
Proof.
  unfold getOrCreateStack. destruct (stackMap th !! _) eqn:Hk; [done |].
  cbn. by rewrite lookup_insert_eq.
Qed.

Lemma foldl_note_label_elem raws ls x :
  x ∈ foldl note_label raws ls ↔ x ∈ raws ∨ x ∈ ls.
Proof.
  revert raws. induction ls as [|l ls IH]; intros raws; cbn [foldl].
  - rewrite elem_of_nil. tauto.
  - rewrite IH, elem_of_cons. unfold note_label.
    destruct (decide (l ∈ raws)) as [Hl | Hl].
    + split; [tauto |]. intros [? | [-> | ?]]; tauto.
    + rewrite elem_of_app, list_elem_of_singleton. tauto.
Qed.

Lemma first_seen_elem ls x : x ∈ first_seen ls ↔ x ∈ ls.
Proof.
  unfold first_seen. rewrite foldl_note_label_elem, elem_of_nil. tauto.
Qed.

Lemma stored_label_inj l1 l2 :
  l1 ≠ l2 → l1 ≠ l2 ++ java_marker → l2 ≠ l1 ++ java_marker →
  stored_label l1 ≠ stored_label l2.
Proof.
  intros Hne H12 H21 Heq.
  destruct (JS.endsWith l1 java_marker) eqn:E1, (JS.endsWith l2 java_marker) eqn:E2.
  - apply endsWith_spec in E1 as [b1 ->]. apply endsWith_spec in E2 as [b2 ->].
    rewrite !stored_label_marker in Heq. by subst.
  - apply endsWith_spec in E1 as [b1 ->].
    rewrite stored_label_marker, stored_label_other in Heq by done. by subst.
  - apply endsWith_spec in E2 as [b2 ->].
    rewrite stored_label_marker, stored_label_other in Heq by done. by subst.
  - rewrite !stored_label_other in Heq by done. done.
Qed.

Lemma reaches_root_fuel (tbl : list stack_row) :
  (∀ i row, tbl !! i = Some row → ∀ p, sk_prefix row = Some p → p < i) →
  ∀ fuel i, i < fuel → i < length tbl → reaches_root tbl fuel i = true.
Proof.
  intros Htbl. induction fuel as [|fuel IH]; intros i Hfuel Hi; [lia |].
  cbn [reaches_root]. destruct (lookup_lt_is_Some_2 tbl i Hi) as [row Hrow].
  rewrite Hrow. destruct (sk_prefix row) as [p|] eqn:Hp; [| done].
  pose proof (Htbl i row Hrow p Hp). apply IH; lia.
Qed.

Lemma iter_emit_console_indep frames n th ts c :
  Nat.iter n (emit frames) (Conv th ts c) =
    Conv (cv_thread (Nat.iter n (emit frames) (Conv th ts [])))
         (cv_timeStamp (Nat.iter n (emit frames) (Conv th ts []))) c.
Proof.
  induction n as [|n IH]; [done |].
  rewrite !Nat.iter_succ, IH, !emit_eq. done.
Qed.

Lemma process_line_well_formed th ts c line :
  well_formed_line line →
  process_line (Conv th ts c) line =
    Conv (cv_thread (process_line (Conv th ts []) line))
         (cv_timeStamp (process_line (Conv th ts []) line)) c.
Proof.
  intros [m Hm]. rewrite !process_line_eq. unfold line_frames. rewrite Hm.
  cbn. apply iter_emit_console_indep.
Qed.

Lemma process_line_malformed cv line :
  malformed_line line →
  process_line cv line =
    Conv (cv_thread cv) (cv_timeStamp cv) (cv_console cv ++ [line]).
Proof.
  intros [Hne Hm]. rewrite process_line_eq. unfold line_frames. rewrite Hm.
  cbn. by rewrite decide_False.
Qed.

Lemma line_cases line :
  well_formed_line line ∨ malformed_line line ∨ line = [].
Proof.
  unfold well_formed_line, malformed_line.
  destruct (match_ line line_re); [left; eauto |].
  destruct (decide (line = [])); auto.
Qed.

Lemma foldl_process_line_filter th ts c lines :
  foldl process_line (Conv th ts c) lines =
    Conv (cv_thread (foldl process_line (Conv th ts []) (filter well_formed_line lines)))
         (cv_timeStamp (foldl process_line (Conv th ts []) (filter well_formed_line lines)))
         (c ++ filter malformed_line lines).
Proof.
  revert th ts c. induction lines as [|line lines IH]; intros th ts c.
  - cbn. by rewrite app_nil_r.
  - cbn [foldl]. destruct (line_cases line) as [Hwf | [Hbad | ->]].
    + rewrite filter_cons_True by done.
      rewrite filter_cons_False by (intros [_ Hm]; destruct Hwf; congruence).
      cbn [foldl]. rewrite process_line_well_formed by done.
      pose proof (process_line_well_formed th ts [] line Hwf) as HX.
      destruct (process_line (Conv th ts []) line) as [thX tsX cX].
      cbn [cv_thread cv_timeStamp] in *. injection HX as ->. by rewrite IH.
    + rewrite filter_cons_False by (intros [? ?]; destruct Hbad; congruence).
      rewrite filter_cons_True by done.
      rewrite process_line_malformed by done. cbn [cv_thread cv_timeStamp cv_console].
      rewrite IH. by rewrite <- app_assoc.
    + rewrite filter_cons_False
        by (intros [? ?]; by rewrite match_line_empty in *).
      rewrite filter_cons_False by (by intros [? _]).
      rewrite process_line_eq. unfold line_frames. rewrite match_line_empty.
      cbn. apply IH.
Qed.
End more.

Lemma first_line_cases text :
  ((LF ∉ text) ∧ first_line text = text) ∨
  (∃ rest, text = first_line text ++ LF :: rest ∧ (LF ∉ first_line text)).
Proof.
  induction text as [|a text IH].
  - left. split; [apply not_elem_of_nil | done].
  - cbn [first_line]. destruct (Ascii.eqb_spec a LF) as [-> | Ha].
    + right. exists text. split; [done | apply not_elem_of_nil].
    + destruct IH as [[Hlf Heq] | (rest & Heq & Hlf)].
      * left. rewrite Heq. split; [| done]. by apply not_elem_of_cons.
      * right. exists rest. split; [by rewrite <- app_comm_cons, <- Heq |].
        by apply not_elem_of_cons.
Qed.

Section lines.
Implicit Types (cv : conv) (line frames digits rest : jsstr).

Lemma line_match_None_iff line :
  match_ line line_re = None ↔ has_weight line = false.
Proof. apply (match_None_iff line_re outs_line_re_nil). Qed.

Lemma run_lines_filter lines :
  cv_thread (run_lines lines) = cv_thread (run_lines (filter well_formed_line lines)) ∧
  cv_console (run_lines lines) = filter malformed_line lines.
Proof. unfold run_lines. by rewrite foldl_process_line_filter. Qed.

Lemma convert_eq profile :
  convertFlameGraphProfile profile =
    Profile 24 1
      [finish "MainThread" 0 0
         (cv_thread (run_lines (filter well_formed_line (JS.split LF profile))))].
Proof.
  unfold convertFlameGraphProfile, run.
  by destruct (run_lines_filter (JS.split LF profile)) as [-> _].
Qed.

Lemma filter_well_formed_nil lines :
  Forall (λ line, match_ line line_re = None) lines →
  filter well_formed_line lines = [].
Proof.
  induction 1 as [|line lines Hline _ IH]; [done |].
  rewrite filter_cons_False; [done |]. intros [m Hm]. congruence.
Qed.

Lemma has_weight_digits_rest digits rest :
  Forall (λ a, JS.is_digit a = true) digits →
  Forall (λ a, JS.is_digit a = false) rest →
  has_weight (digits ++ rest) = false.
Proof.
  intros Hd Hr. destruct (has_weight (digits ++ rest)) eqn:Hw; [| done].
  apply has_weight_spec in Hw as (u & d & v & Heq & Hdig). exfalso.
  revert u Heq. induction Hd as [|a digits Ha Hd IH]; intros u Heq.
  - cbn [app] in Heq. subst rest.
    rewrite Forall_app, Forall_cons, Forall_cons in Hr.
    destruct Hr as (_ & _ & Hd' & _). congruence.
  - destruct u as [|b u]; simplify_eq/=; try done. by eapply IH.
Qed.

Lemma leading_digits_app digits rest :
  Forall (λ a, JS.is_digit a = true) digits →
  Forall (λ a, JS.is_digit a = false) rest →
  leading_digits (digits ++ rest) = digits.
Proof.
  intros Hd Hr. induction Hd as [|a digits Ha Hd IH].
  - destruct Hr as [|b rest Hb _]; [done |]. cbn. by rewrite Hb.
  - cbn. by rewrite Ha, IH.
Qed.

(** What the parser reads on a line that has a frame path, a space, a run
    of digits and then no further digit. *)
Lemma parse_weighted_line frames digits rest :
  digits ≠ [] →
  Forall (λ a, JS.is_digit a = true) digits →
  Forall (λ a, JS.is_digit a = false) rest →
  ∃ m, match_ (frames ++ " " :: digits ++ rest) line_re = Some m ∧
       m !! 1 = Some frames ∧ m !! 3 = Some digits.
Proof.
  intros Hne Hd Hr.
  destruct (match_line_re frames (digits ++ rest)) as (m & Hm & H1 & H3).
  - destruct Hd as [|a digits Ha _]; [done |]. done.
  - by apply has_weight_digits_rest.
  - exists m. by rewrite H3, leading_digits_app.
Qed.

Lemma parseInt_digits_run digits :
  digits ≠ [] → Forall (λ a, JS.is_digit a = true) digits →
  JS.parseInt digits = Some (JS.parseInt_digits 0 digits).
Proof.
  intros Hne Hd. destruct Hd as [|a digits Ha _]; [done |].
  unfold JS.parseInt. by rewrite Ha.
Qed.

Lemma process_weighted_line cv frames digits rest :
  digits ≠ [] →
  Forall (λ a, JS.is_digit a = true) digits →
  Forall (λ a, JS.is_digit a = false) rest →
  process_line cv (frames ++ " " :: digits ++ rest)
  = Nat.iter (JS.parseInt_digits 0 digits) (emit frames) cv.
Proof.
  intros Hne Hd Hr.
  destruct (parse_weighted_line frames digits rest Hne Hd Hr) as (m & Hm & H1 & H3).
  rewrite process_line_eq. unfold line_frames, line_weight.
  rewrite Hm. cbn. rewrite H1, H3. cbn. by rewrite parseInt_digits_run.
Qed.
End lines.

(** * The claims *)

(** C1, as stated, fails: the string table is a plain array that receives
    one entry per new raw label, and the raw labels [foo] and [foo_[j]] are
    both stored as [foo]. *)
Lemma string_table_repeats_stored_label :
  ∃ tr, threads (convertFlameGraphProfile (str "foo;foo_[j] 1")) = [tr] ∧
        frame_calls (str "foo;foo_[j] 1") = [str "foo"; str "foo_[j]"] ∧
        str "foo" ≠ str "foo_[j]" ∧
        tr_stringTable tr = [str "foo"; str "foo"] ∧
        ¬ NoDup (tr_stringTable tr).
Proof.
  eexists. split; [reflexivity |]. split; [by vm_compute |].
  split; [done |]. split; [by vm_compute |].
  vm_compute. intros [Hin _]%NoDup_cons. apply Hin. by left.
Qed.

(** C1, amended: for every run the string table holds, in first-seen order
    from index 0, the stored label of every distinct raw label; a raw label
    has the id of its position in that order, frame row [i] refers to string
    [i], and two distinct raw labels are stored as distinct strings unless
    one is the other followed by the Java marker. *)
Theorem string_table_first_seen (profile : jsstr) :
  ∃ tr, threads (convertFlameGraphProfile profile) = [tr] ∧
    let raws := first_seen (frame_calls profile) in
    tr_stringTable tr = stored_label <$> raws ∧
    NoDup raws ∧
    (∀ l, l ∈ raws ↔ l ∈ frame_calls profile) ∧
    (∀ l i, frameMap (cv_thread (run profile)) !! l = Some i ↔ raws !! i = Some l) ∧
    (∀ i row, tr_frameTable tr !! i = Some row → fr_location row = i) ∧
    (∀ l1 l2, l1 ≠ l2 → l1 ≠ l2 ++ java_marker → l2 ≠ l1 ++ java_marker →
              stored_label l1 ≠ stored_label l2).
Proof.
  eexists. split; [reflexivity |]. cbn [finish tr_stringTable tr_frameTable].
  destruct (run_inv profile) as [[Hinv _] _].
  split; [apply (inv_stringTable _ _ Hinv) |].
  split; [by eapply inv_raws_NoDup |].
  split; [apply first_seen_elem |].
  split; [apply (inv_frameMap _ _ Hinv) |].
  split; [| apply stored_label_inj].
  intros i row. rewrite (inv_frameTable _ _ Hinv), list_lookup_imap.
  destruct (_ !! i); [| done]. by intros [= <-].
Qed.

Lemma string_table_first_seen_witness :
  stored_label (str "a") ≠ stored_label (str "b").
Proof.
  destruct (string_table_first_seen (str "a;b 1")) as (tr & _ & H).
  cbn zeta in H. destruct H as (_ & _ & _ & _ & _ & H).
  apply H; compute_done.
Defined.

(** C2, as stated, fails: the pattern is searched anywhere in the first
    line, so a first line with text after the digits is accepted although it
    does not consist of a frame path, whitespace and digits. *)
Lemma detector_accepts_text_after_weight :
  isFlameGraphFormat (str "x 1y" ++ [LF]) = true ∧
  claimed_detector (str "x 1y" ++ [LF]) = false.
Proof. by vm_compute. Qed.

(** C2, amended: a text that starts with an opening brace is rejected; a
    text with a line break is accepted exactly when its first line contains
    a space immediately followed by a digit, which is where the unanchored
    pattern (frame path, one space, digits) can match; the first line
    [main;foo;bar 12] is accepted and a first line without digits is
    rejected. *)
Theorem detector_first_line_spec :
  (∀ rest, isFlameGraphFormat ("{" :: rest) = false) ∧
  (∀ line rest,
     LF ∉ line → JS.startsWith line (str "{") = false →
     (isFlameGraphFormat (line ++ LF :: rest) = true ↔
      ∃ u d v, line = u ++ " " :: d :: v ∧ JS.is_digit d = true)) ∧
  (∀ rest, isFlameGraphFormat (str "main;foo;bar 12" ++ LF :: rest) = true) ∧
  (∀ text, Forall (λ a, JS.is_digit a = false) (first_line text) →
           isFlameGraphFormat text = false).
Proof.
  split; [done |]. split; [| split].
  - intros line rest Hlf Hb. rewrite detector_first_line by done.
    apply has_weight_spec.
  - intros rest. rewrite detector_first_line; compute_done.
  - intros text Hd. destruct (first_line_cases text) as [[Hlf Heq] | (rest & Heq & Hlf)].
    + by apply detector_no_line_break.
    + destruct (JS.startsWith text (str "{")) eqn:Hb.
      * unfold isFlameGraphFormat. by rewrite Hb.
      * rewrite Heq. rewrite Heq in Hb. rewrite detector_first_line.
        -- by apply has_weight_no_digit.
        -- done.
        -- destruct (first_line text); [done |].
           rewrite <- app_comm_cons in Hb. by rewrite startsWith_brace in *.
Qed.

Lemma detector_first_line_spec_witness :
  isFlameGraphFormat (str "a 1" ++ LF :: str "b 2") = true.
Proof.
  destruct detector_first_line_spec as (_ & H & _).
  apply (H (str "a 1") (str "b 2")); [compute_done | compute_done |].
  by exists (str "a"), "1", [].
Defined.

(** C3: the two lines [a;b;c 1] and [a;b;d 1] give the four stack rows of
    the paths a, a;b, a;b;c and a;b;d.  In general a request for the same
    (prefix, frame) pair is answered from the map without a new row, and the
    stack table of every conversion has no two equal rows. *)
Theorem stack_rows_shared :
  (∃ tr, threads (convertFlameGraphProfile (str "a;b;c 1" ++ LF :: str "a;b;d 1")) = [tr] ∧
         tr_stringTable tr = [str "a"; str "b"; str "c"; str "d"] ∧
         fr_location <$> tr_frameTable tr = [0; 1; 2; 3] ∧
         tr_stackTable tr =
           [StackRow None 0; StackRow (Some 0) 1; StackRow (Some 1) 2;
            StackRow (Some 1) 3] ∧
         length (tr_stackTable tr) = 4) ∧
  (∀ frame prefix th,
     getOrCreateStack frame prefix (getOrCreateStack frame prefix th).2
     = getOrCreateStack frame prefix th) ∧
  (∀ profile, ∃ tr, threads (convertFlameGraphProfile profile) = [tr] ∧
                    NoDup (tr_stackTable tr)).
Proof.
  split; [| split].
  - eexists. split; [reflexivity |]. by vm_compute.
  - intros frame prefix th. pose proof (getOrCreateStack_lookup frame prefix th) as Hk.
    destruct (getOrCreateStack frame prefix th) as [s th1]. cbn [fst snd] in *.
    unfold getOrCreateStack. by rewrite Hk.
  - intros profile. eexists. split; [reflexivity |]. cbn [finish tr_stackTable].
    destruct (run_inv profile) as [[Hinv _] _]. by eapply inv_stackTable_NoDup.
Qed.

(** C4: the timestamps of the emitted samples are 0, 1, ..., N-1 in emission
    order, N being the sum of the weights of all lines; the weight of a line
    is the number the parser reads on it (the run of digits after the frame
    path) and 0 for a line without a match. *)
Theorem sample_timestamps :
  (∀ profile,
     ∃ tr, threads (convertFlameGraphProfile profile) = [tr] ∧
           sa_time <$> tr_samples tr = seq 0 (total_weight profile) ∧
           length (tr_samples tr) = total_weight profile) ∧
  (∀ frames digits,
     digits ≠ [] → Forall (λ a, JS.is_digit a = true) digits →
     line_weight (frames ++ " " :: digits) = JS.parseInt_digits 0 digits) ∧
  (∀ line, match_ line line_re = None → line_weight line = 0) ∧
  (∃ tr, threads (convertFlameGraphProfile (str "a 2" ++ LF :: str "b 3")) = [tr] ∧
         sa_time <$> tr_samples tr = [0; 1; 2; 3; 4] ∧
         sa_stack <$> tr_samples tr = [Some 0; Some 0; Some 1; Some 1; Some 1]).
Proof.
  split; [| split; [| split]].
  - intros profile. eexists. split; [reflexivity |]. cbn [finish tr_samples].
    destruct (run_inv profile) as [[_ Ht] Hn]. rewrite <- Hn. split; [done |].
    by rewrite <- (length_fmap sa_time), Ht, length_seq.
  - intros frames digits Hne Hd.
    destruct (parse_weighted_line frames digits [] Hne Hd) as (m & Hm & _ & H3);
      [constructor |].
    rewrite app_nil_r in Hm. unfold line_weight. rewrite Hm, H3. cbn.
    by rewrite parseInt_digits_run.
  - intros line Hm. unfold line_weight. by rewrite Hm.
  - eexists. split; [reflexivity |]. by vm_compute.
Qed.

Lemma sample_timestamps_witness :
  line_weight (str "main;foo;bar 12") = 12 ∧ line_weight (str "foo;bar") = 0.
Proof.
  destruct sample_timestamps as (_ & H2 & H3 & _). split.
  - apply (H2 (str "main;foo;bar") (str "12")); [done | by repeat constructor].
  - apply H3. compute_done.
Defined.

(** C5: when a label is interned for the first time, a label that ends with
    the Java marker gets the category Java and is stored without the
    marker; otherwise a label without [::] gets Native and a label with
    [::] gets Other, both stored unchanged. *)
Theorem frame_categorization (l : jsstr) (th : thread) :
  frameMap th !! l = None →
  ∃ cat stored,
    frameTable (getOrCreateFrame l th).2
      = frameTable th ++ [FrameRow (length (stringTable th)) cat] ∧
    stringTable (getOrCreateFrame l th).2 = stringTable th ++ [stored] ∧
    (∀ base, l = base ++ str "_[j]" →
             cat = JAVA_CATEGORY_INDEX ∧ stored = base) ∧
    ((¬ ∃ base, l = base ++ str "_[j]") → (¬ ∃ u v, l = u ++ str "::" ++ v) →
     cat = NATIVE_CATEGORY_INDEX ∧ stored = l) ∧
    ((¬ ∃ base, l = base ++ str "_[j]") → (∃ u v, l = u ++ str "::" ++ v) →
     cat = OTHER_CATEGORY_INDEX ∧ stored = l).
Proof.
  intros Hl. rewrite (getOrCreateFrame_miss _ _ Hl). cbn [snd frameTable stringTable].
  exists (frame_category l), (stored_label l). split; [done |]. split; [done |].
  unfold frame_category. split; [| split].
  - intros base ->. split; [| apply stored_label_marker].
    replace (JS.endsWith _ _) with true; [done |].
    symmetry. apply endsWith_spec. eauto.
  - intros Hj Hc. destruct (JS.endsWith l (str "_[j]")) eqn:Ej.
    { destruct Hj. by apply endsWith_spec. }
    split; [| by apply stored_label_other].
    destruct (JS.includes l (str "::")) eqn:Ec; [| done].
    destruct Hc. by apply includes_spec.
  - intros Hj Hc. destruct (JS.endsWith l (str "_[j]")) eqn:Ej.
    { destruct Hj. by apply endsWith_spec. }
    split; [| by apply stored_label_other].
    apply includes_spec in Hc. by rewrite Hc.
Qed.

Lemma frame_categorization_witness :
  frameTable (getOrCreateFrame (str "foo_[j]") createThread).2
    = [FrameRow 0 JAVA_CATEGORY_INDEX] ∧
  stringTable (getOrCreateFrame (str "foo_[j]") createThread).2 = [str "foo"] ∧
  frameTable (getOrCreateFrame (str "foo::bar") createThread).2
    = [FrameRow 0 OTHER_CATEGORY_INDEX] ∧
  frameTable (getOrCreateFrame (str "foo") createThread).2
    = [FrameRow 0 NATIVE_CATEGORY_INDEX].
Proof.
  split; [| split; [| split]].
  - destruct (frame_categorization (str "foo_[j]") createThread)
      as (cat & stored & -> & _ & H & _); [done |].
    by destruct (H (str "foo")) as [-> _].
  - destruct (frame_categorization (str "foo_[j]") createThread)
      as (cat & stored & _ & -> & H & _); [done |].
    by destruct (H (str "foo")) as [_ ->].
  - destruct (frame_categorization (str "foo::bar") createThread)
      as (cat & stored & -> & _ & _ & _ & H); [done |].
    destruct H as [-> _]; [| by exists (str "foo"), (str "bar") | done].
    intros [base Hb]. apply (f_equal JS.endsWith) in Hb.
    apply (f_equal (λ f, f (str "_[j]"))) in Hb.
    assert (JS.endsWith (base ++ str "_[j]") (str "_[j]") = true) as Hb'
      by (apply endsWith_spec; eauto).
    rewrite Hb' in Hb. by vm_compute in Hb.
  - destruct (frame_categorization (str "foo") createThread)
      as (cat & stored & -> & _ & _ & H & _); [done |].
    destruct H as [-> _]; [| | done].
    + intros [base Hb]. apply (f_equal JS.endsWith) in Hb.
      apply (f_equal (λ f, f (str "_[j]"))) in Hb.
      assert (JS.endsWith (base ++ str "_[j]") (str "_[j]") = true) as Hb'
        by (apply endsWith_spec; eauto).
      rewrite Hb' in Hb. by vm_compute in Hb.
    + intros Hc. apply includes_spec in Hc. by vm_compute in Hc.
Defined.

(** C6: once a raw label has been interned, every later interning of it in
    the same thread returns the same frame id and changes nothing, whatever
    samples were added in between; the first interning appended at most one
    frame row.  The key is the raw label: [foo_[j]] is stored as [foo] and
    interned once. *)
Theorem frame_interning_idempotent :
  (∀ l th (calls : list (nat * list jsstr)),
     let th2 := foldl (λ th' c, addSample c.1 c.2 th')
                      (getOrCreateFrame l th).2 calls in
     getOrCreateFrame l th2 = ((getOrCreateFrame l th).1, th2) ∧
     (frameTable (getOrCreateFrame l th).2 = frameTable th ∨
      ∃ row, frameTable (getOrCreateFrame l th).2 = frameTable th ++ [row])) ∧
  (let r1 := getOrCreateFrame (str "foo_[j]") createThread in
   let r2 := getOrCreateFrame (str "foo_[j]") r1.2 in
   r1.1 = 0 ∧ r2.1 = 0 ∧ r2.2 = r1.2 ∧
   stringTable r2.2 = [str "foo"] ∧
   frameTable r2.2 = [FrameRow 0 JAVA_CATEGORY_INDEX]).
Proof.
  split.
  - intros l th calls th2. split.
    + apply getOrCreateFrame_hit. subst th2.
      pose proof (getOrCreateFrame_lookup l th) as H0.
      revert H0. generalize (getOrCreateFrame l th).2 as th1.
      generalize (getOrCreateFrame l th).1 as f.
      induction calls as [|c calls IH]; intros f th1 H1; [done |].
      cbn [foldl]. by apply IH, addSample_frameMap.
    + unfold getOrCreateFrame. destruct (frameMap th !! l); [by left |].
      right. by eexists.
  - by vm_compute.
Qed.

(** C7, as stated, fails: the pattern is searched anywhere in the line, so
    a line with text after the number, which has no trailing number and is
    not of the shape frames, whitespace, digits, is parsed.  After the line
    [a 1] the line [b 2 c] is not logged and adds two samples. *)
Lemma line_without_trailing_number_parsed :
  claimed_shape (str "b 2 c") = false ∧
  cv_console (run (str "a 1" ++ LF :: str "b 2 c")) = [] ∧
  (∃ tr, threads (convertFlameGraphProfile (str "a 1" ++ LF :: str "b 2 c")) = [tr] ∧
         tr_samples tr = [SampleRow (Some 0) 0 0; SampleRow (Some 1) 1 0;
                          SampleRow (Some 1) 2 0]) ∧
  (∃ tr, threads (convertFlameGraphProfile (str "a 1")) = [tr] ∧
         tr_samples tr = [SampleRow (Some 0) 0 0]).
Proof.
  split; [by vm_compute |]. split; [by vm_compute |].
  split; eexists; (split; [reflexivity | by vm_compute]).
Qed.

(** C7, amended: the parser finds no match on a line exactly when no space
    of the line is followed by a digit, in particular on a line without
    digits.  A non-empty line without a match is written to the console and
    changes neither the thread nor the timestamp; the converted thread is
    the one obtained from the matching lines alone and the console holds
    exactly the other non-empty lines, in order; a text with one more line
    that has no match converts like the text without it; and a text without
    any matching line converts to the profile with empty tables. *)
Theorem malformed_lines_skipped :
  (∀ line,
     match_ line line_re = None ↔
     ¬ ∃ u d v, line = u ++ " " :: d :: v ∧ JS.is_digit d = true) ∧
  (∀ line, Forall (λ a, JS.is_digit a = false) line → match_ line line_re = None) ∧
  (∀ cv line,
     line ≠ [] → match_ line line_re = None →
     process_line cv line
     = Conv (cv_thread cv) (cv_timeStamp cv) (cv_console cv ++ [line])) ∧
  (∀ profile,
     convertFlameGraphProfile profile =
       Profile 24 1
         [finish "MainThread" 0 0
            (cv_thread (run_lines (filter well_formed_line (JS.split LF profile))))] ∧
     cv_console (run profile) = filter malformed_line (JS.split LF profile)) ∧
  (∀ good bad,
     LF ∉ good → LF ∉ bad → match_ bad line_re = None →
     convertFlameGraphProfile (good ++ LF :: bad) = convertFlameGraphProfile good ∧
     convertFlameGraphProfile (bad ++ LF :: good) = convertFlameGraphProfile good) ∧
  (∀ profile,
     Forall (λ line, match_ line line_re = None) (JS.split LF profile) →
     convertFlameGraphProfile profile = empty_profile) ∧
  (∃ tr, threads (convertFlameGraphProfile (str "a;b 2" ++ LF :: str "foo;bar")) = [tr] ∧
         tr_samples tr = [SampleRow (Some 1) 0 0; SampleRow (Some 1) 1 0] ∧
         tr_stringTable tr = [str "a"; str "b"] ∧
         cv_console (run (str "a;b 2" ++ LF :: str "foo;bar")) = [str "foo;bar"]).
Proof.
  split; [| split; [| split; [| split; [| split; [| split]]]]].
  - intros line. rewrite line_match_None_iff, <- has_weight_spec.
    by destruct (has_weight line).
  - intros line Hd. by apply line_match_None_iff, has_weight_no_digit.
  - intros cv line Hne Hm. by apply process_line_malformed.
  - intros profile. split; [apply convert_eq |].
    unfold run. by destruct (run_lines_filter (JS.split LF profile)) as [_ ->].
  - intros good bad Hg Hb Hm.
    assert (¬ well_formed_line bad) as Hbad by (intros [m ?]; congruence).
    rewrite !convert_eq, !split_app, !split_no_sep by done.
    rewrite !filter_cons, !filter_nil.
    by destruct (decide (well_formed_line bad)).
  - intros profile Hall. rewrite convert_eq, filter_well_formed_nil by done. done.
  - eexists. split; [reflexivity |]. by vm_compute.
Qed.

Lemma malformed_lines_skipped_witness :
  process_line (Conv createThread 0 []) (str "foo;bar")
  = Conv createThread 0 [str "foo;bar"] ∧
  convertFlameGraphProfile (str "a 1" ++ LF :: str "bad") = convertFlameGraphProfile (str "a 1") ∧
  convertFlameGraphProfile (str "foo" ++ LF :: str "bar") = empty_profile.
Proof.
  destruct malformed_lines_skipped as (_ & _ & H1 & _ & H3 & H4 & _).
  split; [| split].
  - apply (H1 (Conv createThread 0 []) (str "foo;bar")); compute_done.
  - apply (H3 (str "a 1") (str "bad")); compute_done.
  - apply (H4 (str "foo" ++ LF :: str "bar")). compute_done.
Defined.

(** C8: in the thread of every conversion, the prefix of a stack row is null
    or the index of an earlier row, so following prefixes from any row
    reaches a root; the frame of a stack row is a frame-table index; the
    location of a frame row is a string-table index; and the stack of a
    sample is a stack-table index. *)
Theorem tables_structurally_sound (profile : jsstr) :
  ∃ tr, threads (convertFlameGraphProfile profile) = [tr] ∧
    (∀ i row, tr_stackTable tr !! i = Some row →
       (sk_prefix row = None ∨ ∃ p, sk_prefix row = Some p ∧ p < i) ∧
       sk_frame row < length (tr_frameTable tr)) ∧
    (∀ i, i < length (tr_stackTable tr) →
          reaches_root (tr_stackTable tr) (S i) i = true) ∧
    (∀ row, row ∈ tr_frameTable tr →
            fr_location row < length (tr_stringTable tr)) ∧
    (∀ row, row ∈ tr_samples tr →
            ∃ s, sa_stack row = Some s ∧ s < length (tr_stackTable tr)).
Proof.
  eexists. split; [reflexivity |].
  cbn [finish tr_stackTable tr_frameTable tr_stringTable tr_samples].
  destruct (run_inv profile) as [[Hinv _] _].
  destruct (inv_frame_count _ _ Hinv) as [Hfl Hsl].
  split; [| split; [| split]].
  - intros i row Hrow. destruct (inv_stackTable _ _ Hinv i row Hrow) as [Hf Hp].
    split; [| by rewrite Hfl].
    destruct (sk_prefix row) as [p|]; [right | by left].
    exists p. split; [done | by apply Hp].
  - intros i Hi. apply reaches_root_fuel; [| lia | done].
    intros j row Hrow. by apply (inv_stackTable _ _ Hinv j row Hrow).
  - intros row [i Hi]%list_elem_of_lookup.
    rewrite (inv_frameTable _ _ Hinv), list_lookup_imap in Hi.
    destruct (_ !! i) as [l|] eqn:Hl; [| done]. injection Hi as <-. cbn.
    rewrite Hsl. by eapply lookup_lt_Some.
  - apply (inv_samples _ _ Hinv).
Qed.

Lemma tables_structurally_sound_witness :
  ∃ s, sa_stack (SampleRow (Some 1) 0 0) = Some s ∧ s < 2.
Proof.
  destruct (tables_structurally_sound (str "a;b 1")) as (tr & Htr & _ & _ & _ & H).
  injection Htr as <-. apply (H (SampleRow (Some 1) 0 0)). compute_done.
Defined.

(** C9: a line that ends with a space and the digit 0 is matched by the
    parser, with the weight 0, and processing it changes nothing: no console
    output, no sample, no row in any table, no label interned. *)
Theorem zero_weight_line :
  (∀ frames cv,
     (∃ m, match_ (frames ++ str " 0") line_re = Some m ∧
           m !! 1 = Some frames ∧ m !! 3 = Some (str "0")) ∧
     line_weight (frames ++ str " 0") = 0 ∧
     process_line cv (frames ++ str " 0") = cv) ∧
  run (str "x 0") = Conv createThread 0 [] ∧
  convertFlameGraphProfile (str "x 0") = empty_profile.
Proof.
  split; [| by vm_compute].
  intros frames cv.
  assert (Forall (λ a, JS.is_digit a = true) (str "0")) as Hd
    by (by repeat constructor).
  destruct (parse_weighted_line frames (str "0") [] ltac:(done) Hd ltac:(constructor))
    as (m & Hm & H1 & H3).
  change (str " 0") with (" " :: str "0" ++ []).
  split; [by exists m |]. split.
  - unfold line_weight. by rewrite Hm, H3.
  - by rewrite process_weighted_line.
Qed.

(** C10: on a line made of a frame path, a space, a run of digits and then
    characters that are not digits, the parser finds a match: the frames are
    the path split at semicolons, the weight is the run of digits, nothing
    is written to the console, and as many samples as the weight are
    emitted. *)
Theorem text_after_weight_ignored (frames digits rest : jsstr) (cv : conv) :
  digits ≠ [] →
  Forall (λ a, JS.is_digit a = true) digits →
  Forall (λ a, JS.is_digit a = false) rest →
  let line := frames ++ " " :: digits ++ rest in
  let n := JS.parseInt_digits 0 digits in
  (∃ m, match_ line line_re = Some m ∧
        m !! 1 = Some frames ∧ m !! 3 = Some digits) ∧
  line_weight line = n ∧
  process_line cv line = Nat.iter n (emit frames) cv ∧
  (∀ cv', emit frames cv' =
          Conv (addSample (cv_timeStamp cv') (JS.split ";" frames) (cv_thread cv'))
               (S (cv_timeStamp cv')) (cv_console cv')) ∧
  length (samples (cv_thread (process_line cv line)))
  = length (samples (cv_thread cv)) + n ∧
  cv_timeStamp (process_line cv line) = cv_timeStamp cv + n ∧
  cv_console (process_line cv line) = cv_console cv.
Proof.
  intros Hne Hd Hr line n. subst line n.
  destruct (parse_weighted_line frames digits rest Hne Hd Hr) as (m & Hm & H1 & H3).
  split; [by exists m |]. split.
  { unfold line_weight. rewrite Hm, H3. cbn.
    by rewrite parseInt_digits_run. }
  rewrite process_weighted_line by done.
  split; [done |]. split; [intros cv'; apply emit_eq |].
  split; [apply iter_emit_samples |].
  split; [apply iter_emit_timeStamp | apply iter_emit_console].
Qed.

Lemma text_after_weight_ignored_witness :
  process_line (Conv createThread 0 []) (str "a;b 5x")
  = Nat.iter 5 (emit (str "a;b")) (Conv createThread 0 []) ∧
  length (samples (cv_thread (process_line (Conv createThread 0 []) (str "a;b 5x")))) = 5.
Proof.
  assert (Forall (λ a, JS.is_digit a = true) (str "5")) as Hd
    by (by repeat constructor).
  assert (Forall (λ a, JS.is_digit a = false) (str "x")) as Hr
    by (by repeat constructor).
  destruct (text_after_weight_ignored (str "a;b") (str "5") (str "x")
              (Conv createThread 0 []) ltac:(done) Hd Hr)
    as (_ & _ & Hp & _ & Hs & _).
  split; [apply Hp | apply Hs].
Defined.

(** * Further properties

    ** Growth of the tables and call paths *)

Section growth.
Implicit Types (th : thread) (raws : list jsstr) (l : jsstr).

Lemma grows_refl th : grows th th.
Proof. by constructor. Qed.

Lemma grows_trans th1 th2 th3 : grows th1 th2 → grows th2 th3 → grows th1 th3.
Proof. intros [] []. constructor; by etrans. Qed.

Lemma getOrCreateFrame_grows l th : grows th (getOrCreateFrame l th).2.
Proof.
  unfold getOrCreateFrame. destruct (frameMap th !! l) eqn:Hl; [apply grows_refl |].
  constructor; cbn; try done; try (by apply prefix_app_r).
  by apply insert_subseteq.
Qed.

Lemma getOrCreateStack_grows f p th : grows th (getOrCreateStack f p th).2.
Proof.
  unfold getOrCreateStack.
  destruct (stackMap th !! stack_key f p) eqn:Hk; [apply grows_refl |].
  constructor; cbn; try done; try (by apply prefix_app_r).
  by apply insert_subseteq.
Qed.

Lemma extend_stack_grows acc l : grows acc.2 (extend_stack acc l).2.
Proof.
  unfold extend_stack.
  pose proof (getOrCreateFrame_grows l acc.2) as H1.
  destruct (getOrCreateFrame l acc.2) as [f th1].
  pose proof (getOrCreateStack_grows f acc.1 th1) as H2.
  destruct (getOrCreateStack f acc.1 th1) as [s th2]. cbn [fst snd] in *.
  by eapply grows_trans.
Qed.

Lemma foldl_extend_stack_grows acc ls :
  grows acc.2 (foldl extend_stack acc ls).2.
Proof.
  revert acc. induction ls as [|l ls IH]; intros acc; [apply grows_refl |].
  cbn [foldl]. eapply grows_trans; [apply extend_stack_grows | apply IH].
Qed.

Lemma addSample_grows t ls th : grows th (addSample t ls th).
Proof.
  unfold addSample. pose proof (foldl_extend_stack_grows (None, th) ls) as [].
  destruct (foldl extend_stack (None, th) ls) as [stack th']. cbn [fst snd] in *.
  constructor; cbn; try done. by apply prefix_app_r.
Qed.

Lemma emit_grows frames cv : grows (cv_thread cv) (cv_thread (emit frames cv)).
Proof. rewrite emit_eq. apply addSample_grows. Qed.

Lemma iter_emit_grows frames n cv :
  grows (cv_thread cv) (cv_thread (Nat.iter n (emit frames) cv)).
Proof.
  induction n as [|n IH]; [apply grows_refl |].
  rewrite Nat.iter_succ. eapply grows_trans; [apply IH | apply emit_grows].
Qed.

Lemma process_line_grows cv line :
  grows (cv_thread cv) (cv_thread (process_line cv line)).
Proof.
  rewrite process_line_eq. destruct (line_frames line); [apply iter_emit_grows |].
  destruct (decide (line = [])); apply grows_refl.
Qed.

Lemma foldl_process_line_grows cv lines :
  grows (cv_thread cv) (cv_thread (foldl process_line cv lines)).
Proof.
  revert cv. induction lines as [|line lines IH]; intros cv; [apply grows_refl |].
  cbn [foldl]. eapply grows_trans; [apply process_line_grows | apply IH].
Qed.

Lemma note_label_prefix raws l : raws `prefix_of` note_label raws l.
Proof. unfold note_label. destruct (decide _); [done | by apply prefix_app_r]. Qed.

Lemma foldl_note_label_prefix raws ls : raws `prefix_of` foldl note_label raws ls.
Proof.
  revert raws. induction ls as [|l ls IH]; intros raws; [done |].
  cbn [foldl]. etrans; [apply note_label_prefix | apply IH].
Qed.
End growth.

Section paths.
Implicit Types (th : thread) (raws : list jsstr) (tbl : list stack_row).

Lemma path_of_prefix tbl tbl' s fs :
  tbl `prefix_of` tbl' → path_of tbl s fs → path_of tbl' s fs.
Proof.
  intros Hpre. induction 1 as [s f Hs | s p f fs Hs _ IH].
  - apply path_root. by eapply prefix_lookup_Some.
  - eapply path_step; [by eapply prefix_lookup_Some | done].
Qed.

Lemma path_of_nonempty tbl s fs : path_of tbl s fs → fs ≠ [].
Proof. destruct 1; [done |]. by intros [_ ?]%app_eq_nil. Qed.

Lemma acc_path_prefix tbl tbl' prefix fs :
  tbl `prefix_of` tbl' → acc_path tbl prefix fs → acc_path tbl' prefix fs.
Proof. destruct prefix; [apply path_of_prefix | done]. Qed.

(** With enough fuel the function computes the path. *)
Lemma path_of_stack_path tbl :
  (∀ i row, tbl !! i = Some row → ∀ p, sk_prefix row = Some p → p < i) →
  ∀ s fs, path_of tbl s fs → ∀ fuel, s < fuel → stack_path tbl fuel s = Some fs.
Proof.
  intros Htbl s fs. induction 1 as [s f Hs | s p f fs Hs _ IH]; intros fuel Hfuel.
  - destruct fuel as [|fuel]; [lia |]. cbn [stack_path]. by rewrite Hs.
  - destruct fuel as [|fuel]; [lia |]. cbn [stack_path]. rewrite Hs. cbn.
    pose proof (Htbl s _ Hs p eq_refl). rewrite IH by lia. done.
Qed.

Lemma stack_path_path_of tbl fuel s fs :
  stack_path tbl fuel s = Some fs → path_of tbl s fs.
Proof.
  revert s fs. induction fuel as [|fuel IH]; intros s fs; [done |].
  cbn [stack_path]. destruct (tbl !! s) as [[[p|] f]|] eqn:Hs; cbn; [| | done].
  - destruct (stack_path tbl fuel p) as [fs'|] eqn:Hp; cbn; [| done].
    intros [= <-]. eapply path_step; [done | by apply IH].
  - intros [= <-]. by apply path_root.
Qed.

(** In a table without equal rows a call path belongs to one stack only. *)
Lemma path_of_inj tbl s1 s2 fs :
  NoDup tbl → path_of tbl s1 fs → path_of tbl s2 fs → s1 = s2.
Proof.
  intros Hnd H1. revert s2. induction H1 as [s1 f Hs1 | s1 p1 f1 fs1 Hs1 Hp1 IH];
    intros s2 H2.
  - inversion H2 as [s f' Hs2 | s p2 f2 fs2 Hs2 Hp2 He]; subst.
    + by eapply NoDup_lookup.
    + apply path_of_nonempty in Hp2. by destruct fs2 as [|? [|]].
  - inversion H2 as [s f' Hs2 He | s p2 f2 fs2 Hs2 Hp2 He]; subst.
    + apply path_of_nonempty in Hp1. by destruct fs1 as [|? [|]].
    + match goal with H : _ ++ _ = _ ++ _ |- _ =>
        apply app_inj_tail in H as [-> ->] end.
      rewrite (IH _ Hp2) in Hs1. by eapply NoDup_lookup.
Qed.

Lemma spells_grows raws raws' th th' row ls :
  raws `prefix_of` raws' → grows th th' → spells raws th row ls → spells raws' th' row ls.
Proof.
  intros Hr Hg (s & fs & Hs & Hp & Hl). exists s, fs. split; [done |]. split.
  - eapply path_of_prefix; [apply (grows_stackTable _ _ Hg) | done].
  - eapply Forall2_impl; [done |]. intros f l Hf. cbn in Hf |- *.
    exact (prefix_lookup_Some _ _ _ _ Hf Hr).
Qed.

(** One step of the fold appends the frame of the label to the path. *)
Lemma extend_stack_path raws acc l fs ls :
  thread_inv raws acc.2 → valid_prefix acc.1 acc.2 →
  acc_path (stackTable acc.2) acc.1 fs →
  Forall2 (λ f l', raws !! f = Some l') fs ls →
  ∃ f, acc_path (stackTable (extend_stack acc l).2) (extend_stack acc l).1 (fs ++ [f]) ∧
       Forall2 (λ f l', note_label raws l !! f = Some l') (fs ++ [f]) (ls ++ [l]).
Proof.
  intros Hinv Hp Hacc Hfs. unfold extend_stack.
  destruct (getOrCreateFrame_inv raws acc.2 l Hinv) as [Hinv1 Hf].
  pose proof (getOrCreateFrame_stackTable l acc.2) as Hst.
  destruct (getOrCreateFrame l acc.2) as [f th1]. cbn [fst snd] in *.
  assert (valid_prefix acc.1 th1) as Hp1.
  { intros q Hq. rewrite Hst. by apply Hp. }
  destruct (getOrCreateStack_inv _ th1 f acc.1 Hinv1) as [Hinv2 Hs];
    [by eapply lookup_lt_Some | done |].
  pose proof (getOrCreateStack_grows f acc.1 th1) as Hg.
  destruct (getOrCreateStack f acc.1 th1) as [s th2]. cbn [fst snd] in *.
  exists f. split.
  - cbn [acc_path]. destruct acc.1 as [p|]; cbn [acc_path] in Hacc.
    + eapply path_step; [done |].
      eapply path_of_prefix; [apply (grows_stackTable _ _ Hg) |]. by rewrite Hst.
    + subst fs. by apply path_root.
  - apply Forall2_app; [| by constructor].
    eapply Forall2_impl; [done |]. intros f' l' Hf'. cbn in Hf' |- *.
    exact (prefix_lookup_Some _ _ _ _ Hf' (note_label_prefix raws l)).
Qed.

Lemma foldl_extend_stack_path raws acc ls0 fs0 ls :
  thread_inv raws acc.2 → valid_prefix acc.1 acc.2 →
  acc_path (stackTable acc.2) acc.1 fs0 →
  Forall2 (λ f l, raws !! f = Some l) fs0 ls0 →
  ∃ fs, acc_path (stackTable (foldl extend_stack acc ls).2)
                 (foldl extend_stack acc ls).1 fs ∧
        Forall2 (λ f l, foldl note_label raws ls !! f = Some l) fs (ls0 ++ ls).
Proof.
  revert raws acc ls0 fs0. induction ls as [|l ls IH]; intros raws acc ls0 fs0 Hinv Hp Hacc Hfs.
  - exists fs0. by rewrite app_nil_r.
  - cbn [foldl].
    destruct (extend_stack_path raws acc l fs0 ls0 Hinv Hp Hacc Hfs) as (f & Hacc1 & Hfs1).
    destruct (extend_stack_inv raws acc l Hinv Hp) as (Hinv1 & Hp1 & _).
    destruct (IH _ _ _ _ Hinv1 Hp1 Hacc1 Hfs1) as (fs & Hacc2 & Hfs2).
    exists fs. split; [done |]. by rewrite <- app_assoc in Hfs2.
Qed.

(** The sample that [addSample] appends spells its labels; the samples
    before it stay as they were and spell what they spelled. *)
Lemma addSample_spells raws t ls th paths :
  thread_inv raws th → ls ≠ [] →
  Forall2 (spells raws th) (samples th) paths →
  Forall2 (spells (foldl note_label raws ls) (addSample t ls th))
          (samples (addSample t ls th)) (paths ++ [ls]).
Proof.
  intros Hinv Hne Hold.
  pose proof (addSample_grows t ls th) as Hg. unfold addSample in *.
  destruct (foldl_extend_stack_path raws (None, th) [] [] ls Hinv) as (fs & Hacc & Hfs);
    [done | done | constructor |].
  destruct (foldl_extend_stack_inv raws (None, th) ls Hinv) as (_ & _ & Hsome); [done |].
  pose proof (foldl_extend_stack_samples (None, th) ls) as Hsam.
  destruct (foldl extend_stack (None, th) ls) as [stack th']. cbn [fst snd] in *.
  set (th1 := Thread _ _ _ _ _ _) in *.
  change (samples th1) with (samples th' ++ [SampleRow stack t 0]).
  rewrite Hsam. apply Forall2_app.
  - eapply Forall2_impl; [done |]. intros row p Hrow.
    eapply spells_grows; [apply foldl_note_label_prefix | done | done].
  - constructor; [| constructor]. destruct (Hsome Hne) as [s ->].
    exists s, fs. done.
Qed.
End paths.

Section decode.
Implicit Types (cv : conv) (raws : list jsstr) (line frames : jsstr).

Lemma emit_spells raws frames cv paths :
  conv_inv raws cv →
  Forall2 (spells raws (cv_thread cv)) (samples (cv_thread cv)) paths →
  Forall2 (spells (foldl note_label raws (JS.split ";" frames))
                  (cv_thread (emit frames cv)))
          (samples (cv_thread (emit frames cv))) (paths ++ [JS.split ";" frames]).
Proof.
  intros [Hinv _] Hold. rewrite emit_eq. cbn [cv_thread].
  apply addSample_spells; [done | apply split_nonempty | done].
Qed.

Lemma iter_emit_spells raws frames n cv paths :
  conv_inv raws cv →
  Forall2 (spells raws (cv_thread cv)) (samples (cv_thread cv)) paths →
  Forall2 (spells (foldl note_label raws (mjoin (replicate n (JS.split ";" frames))))
                  (cv_thread (Nat.iter n (emit frames) cv)))
          (samples (cv_thread (Nat.iter n (emit frames) cv)))
          (paths ++ replicate n (JS.split ";" frames)).
Proof.
  intros Hcv Hold. induction n as [|n IH]; [by rewrite app_nil_r |].
  rewrite !replicate_S_end, join_app, foldl_app, app_assoc. cbn [mjoin list_join].
  rewrite app_nil_r, Nat.iter_succ. apply emit_spells; [| done].
  by apply iter_emit_inv.
Qed.

Lemma line_weight_unmatched line : line_frames line = None → line_weight line = 0.
Proof.
  unfold line_frames, line_weight. by destruct (match_ line line_re).
Qed.

Lemma process_line_spells raws cv line paths :
  conv_inv raws cv →
  Forall2 (spells raws (cv_thread cv)) (samples (cv_thread cv)) paths →
  Forall2 (spells (foldl note_label raws (line_calls line))
                  (cv_thread (process_line cv line)))
          (samples (cv_thread (process_line cv line)))
          (paths ++ line_raw_paths line).
Proof.
  intros Hcv Hold. rewrite process_line_eq. unfold line_calls, line_raw_paths.
  destruct (line_frames line) as [frames|] eqn:Hf.
  - by apply iter_emit_spells.
  - rewrite line_weight_unmatched by done. cbn. rewrite app_nil_r.
    by destruct (decide (line = [])).
Qed.

Lemma foldl_process_line_spells raws cv lines paths :
  conv_inv raws cv →
  Forall2 (spells raws (cv_thread cv)) (samples (cv_thread cv)) paths →
  Forall2 (spells (foldl note_label raws (lines ≫= line_calls))
                  (cv_thread (foldl process_line cv lines)))
          (samples (cv_thread (foldl process_line cv lines)))
          (paths ++ (lines ≫= line_raw_paths)).
Proof.
  revert raws cv paths. induction lines as [|line lines IH]; intros raws cv paths Hcv Hold.
  - cbn. by rewrite app_nil_r.
  - cbn [foldl]. rewrite !bind_cons, foldl_app, app_assoc.
    apply IH; [by apply process_line_inv | by apply process_line_spells].
Qed.

Lemma run_spells profile :
  Forall2 (spells (first_seen (frame_calls profile)) (cv_thread (run profile)))
          (samples (cv_thread (run profile)))
          (JS.split LF profile ≫= line_raw_paths).
Proof.
  apply (foldl_process_line_spells [] _ _ []); [apply conv_inv_init | constructor].
Qed.

Lemma line_paths_raw line :
  line_paths line = (λ ls : list jsstr, stored_label <$> ls) <$> line_raw_paths line.
Proof.
  unfold line_paths, line_raw_paths.
  destruct (line_frames line) eqn:Hf; cbn.
  - by rewrite fmap_replicate.
  - by rewrite line_weight_unmatched.
Qed.

(** Under the invariant a frame id reads back as the stored label of its raw
    label. *)
Lemma frame_label_inv raws th f l :
  thread_inv raws th → raws !! f = Some l →
  frame_label (finish "MainThread" 0 0 th) f = Some (stored_label l).
Proof.
  intros Hinv Hf. unfold frame_label. cbn [finish tr_frameTable tr_stringTable].
  rewrite (inv_frameTable _ _ Hinv), (inv_stringTable _ _ Hinv).
  rewrite list_lookup_imap, Hf. cbn. by rewrite list_lookup_fmap, Hf.
Qed.

Lemma spells_sample_labels raws th row ls :
  thread_inv raws th → spells raws th row ls →
  sample_labels (finish "MainThread" 0 0 th) row = Some (stored_label <$> ls).
Proof.
  intros Hinv (s & fs & Hs & Hp & Hl). unfold sample_labels. rewrite Hs. cbn.
  rewrite (path_of_stack_path (stackTable th)) with (fs := fs); cbn.
  - apply mapM_Some. apply Forall2_fmap_r.
    eapply Forall2_impl; [done |]. intros f l Hf. by eapply frame_label_inv.
  - intros i row' Hrow. apply (inv_stackTable _ _ Hinv i row' Hrow).
  - done.
  - destruct Hp as [s f Hrow | s p f fs Hrow _]; by eapply lookup_lt_Some.
Qed.
End decode.

Section again.
Implicit Types (th : thread) (cv : conv) (frames : jsstr).

(** Folding labels that are already interned along the same path answers
    from the maps and leaves the thread as it is. *)
Lemma foldl_extend_stack_again acc ls th2 :
  grows (foldl extend_stack acc ls).2 th2 →
  foldl extend_stack (acc.1, th2) ls = ((foldl extend_stack acc ls).1, th2).
Proof.
  revert acc. induction ls as [|l ls IH]; intros acc Hg; [done |].
  cbn [foldl] in *.
  assert (grows (extend_stack acc l).2 th2) as Hg1.
  { eapply grows_trans; [apply foldl_extend_stack_grows | done]. }
  assert (extend_stack (acc.1, th2) l = ((extend_stack acc l).1, th2)) as ->.
  { revert Hg1. unfold extend_stack. cbn [fst snd].
    pose proof (getOrCreateFrame_lookup l acc.2) as Hf.
    destruct (getOrCreateFrame l acc.2) as [f th1]. cbn [fst snd] in *.
    pose proof (getOrCreateStack_lookup f acc.1 th1) as Hs.
    pose proof (getOrCreateStack_frameMap f acc.1 th1) as Hfm.
    destruct (getOrCreateStack f acc.1 th1) as [s th1']. cbn [fst snd] in *.
    intros Hg1.
    rewrite (getOrCreateFrame_hit l th2 f).
    - unfold getOrCreateStack.
      by rewrite (lookup_weaken _ _ _ _ Hs (grows_stackMap _ _ Hg1)).
    - apply (lookup_weaken (frameMap th1')); [by rewrite Hfm | apply Hg1]. }
  by apply (IH (extend_stack acc l)).
Qed.

(** Emitting the samples of one line: the first sample interns the path,
    the others reuse its stack and change only the sample table. *)
Lemma iter_emit_again frames n cv :
  let r := foldl extend_stack (None, cv_thread cv) (JS.split ";" frames) in
  Nat.iter (S n) (emit frames) cv =
    Conv (Thread (samples (cv_thread cv) ++
                  ((λ k, SampleRow r.1 (cv_timeStamp cv + k) 0) <$> seq 0 (S n)))
                 (frameTable r.2) (stackTable r.2) (stringTable r.2)
                 (stackMap r.2) (frameMap r.2))
         (cv_timeStamp cv + S n) (cv_console cv).
Proof.
  intros r. induction n as [|n IH].
  - cbn [Nat.iter nat_rect]. rewrite emit_eq. unfold addSample. fold r.
    pose proof (foldl_extend_stack_samples (None, cv_thread cv) (JS.split ";" frames))
      as Hs. fold r in Hs. cbn [snd] in Hs.
    destruct r as [stack th']. cbn [fst snd seq fmap list_fmap] in *.
    by rewrite Hs, Nat.add_0_r, Nat.add_1_r.
  - rewrite Nat.iter_succ, IH, emit_eq. cbn [cv_thread cv_timeStamp cv_console].
    unfold addSample.
    set (th2 := Thread _ _ _ _ _ _).
    assert (grows r.2 th2) as Hg.
    { pose proof (foldl_extend_stack_samples (None, cv_thread cv) (JS.split ";" frames))
        as Hs. fold r in Hs. cbn [snd] in Hs.
      constructor; subst th2; cbn; try done. rewrite Hs. by apply prefix_app_r. }
    pose proof (foldl_extend_stack_again (None, cv_thread cv) _ th2 Hg) as Hagain.
    fold r in Hagain. cbn [fst] in Hagain. rewrite Hagain.
    subst th2. cbn [samples frameTable stackTable stringTable stackMap frameMap].
    rewrite (seq_S (S n)), fmap_app, <- app_assoc. cbn [fmap list_fmap].
    do 2 f_equal. lia.
Qed.
End again.

Section helpers.
Implicit Types (th : thread) (cv : conv) (line frames : jsstr).

Lemma split_app_sep sep u v :
  JS.split sep (u ++ sep :: v) = JS.split sep u ++ JS.split sep v.
Proof.
  induction u as [|a u IH]; cbn [app JS.split].
  - by rewrite Ascii.eqb_refl.
  - destruct (Ascii.eqb a sep); [by rewrite IH |]. rewrite IH.
    pose proof (split_nonempty sep u). by destruct (JS.split sep u).
Qed.

Lemma split_trailing_sep sep u : JS.split sep (u ++ [sep]) = JS.split sep u ++ [[]].
Proof. apply (split_app_sep sep u []). Qed.

Lemma split_replicate_sep sep n :
  JS.split sep (replicate n sep) = replicate (S n) [].
Proof.
  induction n as [|n IH]; [done |]. cbn [replicate JS.split].
  by rewrite Ascii.eqb_refl, IH.
Qed.

Lemma process_line_blank cv : process_line cv [] = cv.
Proof. done. Qed.

Lemma foldl_process_line_blank cv lines :
  foldl process_line cv (filter (λ l, l ≠ []) lines) = foldl process_line cv lines.
Proof.
  revert cv. induction lines as [|line lines IH]; intros cv; [done |].
  rewrite filter_cons. destruct (decide (line ≠ [])) as [Hne | Heq].
  - cbn [foldl]. apply IH.
  - apply dec_stable in Heq as ->. cbn [foldl]. rewrite process_line_blank. apply IH.
Qed.

Lemma stack_path_total (tbl : list stack_row) :
  (∀ i row, tbl !! i = Some row → ∀ p, sk_prefix row = Some p → p < i) →
  ∀ fuel s, s < fuel → s < length tbl → is_Some (stack_path tbl fuel s).
Proof.
  intros Htbl. induction fuel as [|fuel IH]; intros s Hfuel Hs; [lia |].
  cbn [stack_path]. destruct (lookup_lt_is_Some_2 tbl s Hs) as [row Hrow].
  rewrite Hrow. cbn. destruct (sk_prefix row) as [p|] eqn:Hp; [| by eexists].
  pose proof (Htbl s row Hrow p Hp).
  destruct (IH p) as [fs ->]; [lia | lia |]. by eexists.
Qed.

Lemma foldl_extend_stack_is_Some acc ls :
  ls ≠ [] → is_Some (foldl extend_stack acc ls).1.
Proof.
  revert acc. induction ls as [|l ls IH]; intros acc Hne; [done |].
  cbn [foldl]. destruct ls as [|l' ls]; [| by apply IH].
  cbn. unfold extend_stack. destruct (getOrCreateFrame l acc.2) as [f th1].
  destruct (getOrCreateStack f acc.1 th1). by eexists.
Qed.

Lemma addSample_responsiveness t ls th :
  Forall (λ row, sa_responsiveness row = 0) (samples th) →
  Forall (λ row, sa_responsiveness row = 0) (samples (addSample t ls th)).
Proof.
  intros Hth. destruct (addSample_samples t ls th) as [stack ->].
  apply Forall_app. split; [done |]. by repeat constructor.
Qed.

Lemma run_responsiveness profile row :
  row ∈ samples (cv_thread (run profile)) → sa_responsiveness row = 0.
Proof.
  revert row. apply Forall_forall. unfold run, run_lines.
  assert (∀ cv lines,
    Forall (λ row, sa_responsiveness row = 0) (samples (cv_thread cv)) →
    Forall (λ row, sa_responsiveness row = 0)
           (samples (cv_thread (foldl process_line cv lines)))) as H.
  { intros cv lines. revert cv. induction lines as [|line lines IH]; intros cv Hcv;
      [done |].
    cbn [foldl]. apply IH. rewrite process_line_eq.
    destruct (line_frames line); [| by destruct (decide (line = []))].
    induction (line_weight line) as [|n IHn]; [done |].
    rewrite Nat.iter_succ, emit_eq. by apply addSample_responsiveness. }
  apply H. constructor.
Qed.

Lemma Forall2_fmap_eq {A B C} (f : A → C) (g : B → C) l k :
  Forall2 (λ x y, f x = g y) l k → f <$> l = g <$> k.
Proof. induction 1; [done |]. cbn. by f_equal. Qed.

Lemma bind_fmap_lines {A B} (f : A → B) (g : jsstr → list A) (lines : list jsstr) :
  lines ≫= (λ line, f <$> g line) = f <$> (lines ≫= g).
Proof.
  induction lines as [|line lines IH]; [done |].
  by rewrite !bind_cons, fmap_app, IH.
Qed.
End helpers.

(** ** The converter and the detector *)

(** X1: the call path read back from the tables for every sample, in
    order, is the frame path of its line with stored labels, repeated as
    often as the weight of the line. *)
Theorem samples_read_back :
  (∀ profile,
     ∃ tr, threads (convertFlameGraphProfile profile) = [tr] ∧
           sample_labels tr <$> tr_samples tr
           = Some <$> (JS.split LF profile ≫= line_paths)) ∧
  (∀ frames digits rest,
     digits ≠ [] →
     Forall (λ a, JS.is_digit a = true) digits →
     Forall (λ a, JS.is_digit a = false) rest →
     line_paths (frames ++ " " :: digits ++ rest)
     = replicate (JS.parseInt_digits 0 digits) (stored_label <$> JS.split ";" frames)) ∧
  (∀ line, match_ line line_re = None → line_paths line = []).
Proof.
  split; [| split].
  - intros profile. eexists. split; [reflexivity |]. cbn [finish tr_samples].
    destruct (run_inv profile) as [[Hinv _] _].
    assert (JS.split LF profile ≫= line_paths
            = (λ ls : list jsstr, stored_label <$> ls)
                <$> (JS.split LF profile ≫= line_raw_paths)) as ->.
    { rewrite <- bind_fmap_lines. apply list_bind_ext; [| done].
      intros line. apply line_paths_raw. }
    rewrite <- list_fmap_compose. apply Forall2_fmap_eq.
    eapply Forall2_impl; [apply run_spells |]. intros row ls Hrow. cbn.
    change (ThreadResult "MainThread" 0 0 _ _ _ _)
      with (finish "MainThread" 0 0 (cv_thread (run profile))).
    by eapply spells_sample_labels.
  - intros frames digits rest Hne Hd Hr.
    destruct (parse_weighted_line frames digits rest Hne Hd Hr) as (m & Hm & H1 & H3).
    unfold line_paths, line_frames, line_weight. rewrite Hm. cbn. rewrite H1, H3. cbn.
    by rewrite parseInt_digits_run.
  - intros line Hm. unfold line_paths, line_frames. by rewrite Hm.
Qed.

Lemma samples_read_back_witness :
  line_paths (str "a;b_[j] 2") = [[str "a"; str "b"]; [str "a"; str "b"]] ∧
  line_paths (str "a;b") = [].
Proof.
  destruct samples_read_back as (_ & H2 & H3). split.
  - apply (H2 (str "a;b_[j]") (str "2") []); [done | by repeat constructor | constructor].
  - apply H3. compute_done.
Defined.

(** X2: in the stack table of every conversion each row has a call path,
    and two rows never have the same call path: a call path is stored
    once. *)
Theorem call_path_has_one_stack (profile : jsstr) :
  ∃ tr, threads (convertFlameGraphProfile profile) = [tr] ∧
    let tbl := tr_stackTable tr in
    (∀ s, s < length tbl → is_Some (stack_path tbl (length tbl) s)) ∧
    (∀ s1 s2 fs,
       stack_path tbl (length tbl) s1 = Some fs →
       stack_path tbl (length tbl) s2 = Some fs → s1 = s2).
Proof.
  eexists. split; [reflexivity |]. cbn [finish tr_stackTable].
  destruct (run_inv profile) as [[Hinv _] _]. split.
  - intros s Hs. apply stack_path_total; [| done | done].
    intros i row Hrow. apply (inv_stackTable _ _ Hinv i row Hrow).
  - intros s1 s2 fs H1 H2. eapply path_of_inj.
    + by eapply inv_stackTable_NoDup.
    + by eapply stack_path_path_of.
    + by eapply stack_path_path_of.
Qed.

Lemma call_path_has_one_stack_witness :
  is_Some (stack_path [StackRow None 0; StackRow (Some 0) 1] 2 1).
Proof.
  destruct (call_path_has_one_stack (str "a;b 1")) as (tr & Htr & H & _).
  injection Htr as <-. apply (H 1). compute_done.
Defined.

(** X3: lines that come later only append: the tables and the samples built
    from the first lines are prefixes of those built from all lines, so no
    row is removed, changed or renumbered. *)
Theorem tables_append_only :
  (∀ lines1 lines2,
     grows (cv_thread (run_lines lines1)) (cv_thread (run_lines (lines1 ++ lines2)))) ∧
  (∀ text1 text2,
     ∃ tr1 tr2,
       threads (convertFlameGraphProfile text1) = [tr1] ∧
       threads (convertFlameGraphProfile (text1 ++ LF :: text2)) = [tr2] ∧
       tr_samples tr1 `prefix_of` tr_samples tr2 ∧
       tr_frameTable tr1 `prefix_of` tr_frameTable tr2 ∧
       tr_stackTable tr1 `prefix_of` tr_stackTable tr2 ∧
       tr_stringTable tr1 `prefix_of` tr_stringTable tr2).
Proof.
  assert (∀ lines1 lines2,
    grows (cv_thread (run_lines lines1)) (cv_thread (run_lines (lines1 ++ lines2)))) as H.
  { intros lines1 lines2. unfold run_lines. rewrite foldl_app.
    apply foldl_process_line_grows. }
  split; [done |]. intros text1 text2. eexists _, _.
  split; [reflexivity |]. split; [reflexivity |].
  cbn [finish tr_samples tr_frameTable tr_stackTable tr_stringTable].
  unfold run. rewrite split_app_sep.
  destruct (H (JS.split LF text1) (JS.split LF text2)). done.
Qed.

(** X4: the samples of one line all carry the same stack and consecutive
    timestamps, and a weight above one adds no row to the frame, stack and
    string tables beyond those of the first sample. *)
Theorem weight_repeats_one_stack (frames digits rest : jsstr) (cv : conv) :
  digits ≠ [] →
  Forall (λ a, JS.is_digit a = true) digits →
  Forall (λ a, JS.is_digit a = false) rest →
  let n := JS.parseInt_digits 0 digits in
  let th' := cv_thread (process_line cv (frames ++ " " :: digits ++ rest)) in
  ∃ stack,
    samples th' = samples (cv_thread cv) ++
                  ((λ k, SampleRow (Some stack) (cv_timeStamp cv + k) 0) <$> seq 0 n) ∧
    (n ≠ 0 →
     frameTable th' = frameTable (cv_thread (emit frames cv)) ∧
     stackTable th' = stackTable (cv_thread (emit frames cv)) ∧
     stringTable th' = stringTable (cv_thread (emit frames cv))).
Proof.
  intros Hne Hd Hr n th'. subst th'. rewrite process_weighted_line by done. fold n.
  destruct n as [|n].
  { exists 0. cbn. by rewrite app_nil_r. }
  pose proof (iter_emit_again frames n cv) as Hn.
  pose proof (iter_emit_again frames 0 cv) as H0. cbn zeta in Hn, H0.
  cbn [Nat.iter nat_rect] in H0. rewrite Hn, H0.
  destruct (foldl_extend_stack_is_Some (None, cv_thread cv) (JS.split ";" frames))
    as [s Hs]; [apply split_nonempty |].
  exists s. rewrite Hs. done.
Qed.

Lemma weight_repeats_one_stack_witness :
  ∃ stack,
    samples (cv_thread (process_line (Conv createThread 0 []) (str "x 5")))
    = (λ k, SampleRow (Some stack) k 0) <$> seq 0 5.
Proof.
  assert (Forall (λ a, JS.is_digit a = true) (str "5")) as Hd
    by (by repeat constructor).
  destruct (weight_repeats_one_stack (str "x") (str "5") [] (Conv createThread 0 [])
              ltac:(done) Hd ltac:(constructor)) as (stack & Hs & _).
  exists stack. exact Hs.
Defined.

(** X5: empty lines are skipped without a trace: the conversion of a list
    of lines is the conversion of its non-empty lines, a line break at the
    end of the text changes nothing, and the empty text or a text of line
    breaks only converts to the profile with empty tables and logs
    nothing. *)
Theorem blank_lines_ignored :
  (∀ lines, run_lines lines = run_lines (filter (λ l, l ≠ []) lines)) ∧
  (∀ profile,
     run (profile ++ [LF]) = run profile ∧
     convertFlameGraphProfile (profile ++ [LF]) = convertFlameGraphProfile profile) ∧
  (∀ n, run (replicate n LF) = Conv createThread 0 [] ∧
        convertFlameGraphProfile (replicate n LF) = empty_profile).
Proof.
  assert (∀ profile, run (profile ++ [LF]) = run profile) as Htrail.
  { intros profile. unfold run, run_lines.
    by rewrite split_trailing_sep, foldl_app. }
  assert (∀ n, run (replicate n LF) = Conv createThread 0 []) as Hblank.
  { intros n. unfold run, run_lines. rewrite split_replicate_sep.
    generalize (S n). intros k. induction k as [|k IH]; [done |]. apply IH. }
  split; [| split].
  - intros lines. unfold run_lines. by rewrite foldl_process_line_blank.
  - intros profile. split; [done |]. unfold convertFlameGraphProfile. by rewrite Htrail.
  - intros n. split; [done |]. unfold convertFlameGraphProfile. by rewrite Hblank.
Qed.

(** X6: when the detector accepts a text, the text has a line break and
    the line parser of the converter finds a match on the first line, which
    is therefore not written to the console. *)
Theorem detector_accepts_parsable_first_line (text : jsstr) :
  isFlameGraphFormat text = true →
  ∃ line rest,
    text = line ++ LF :: rest ∧ (LF ∉ line) ∧
    head (JS.split LF text) = Some line ∧
    well_formed_line line ∧
    ∀ cv, cv_console (process_line cv line) = cv_console cv.
Proof.
  intros Hdet.
  destruct (first_line_cases text) as [[Hlf _] | (rest & Heq & Hlf)].
  { by rewrite detector_no_line_break in Hdet. }
  exists (first_line text), rest. split; [done |]. split; [done |].
  assert (JS.startsWith (first_line text) (str "{") = false) as Hb.
  { destruct (JS.startsWith text (str "{")) eqn:Hb.
    - unfold isFlameGraphFormat in Hdet. by rewrite Hb in Hdet.
    - rewrite Heq in Hb. destruct (first_line text); [done |].
      rewrite <- app_comm_cons in Hb. by rewrite startsWith_brace in *. }
  rewrite Heq, detector_first_line in Hdet by done.
  assert (well_formed_line (first_line text)) as Hwf.
  { apply not_eq_None_Some. intros Hm%line_match_None_iff. congruence. }
  split; [| split; [done |]].
  - rewrite Heq at 1. by rewrite split_app.
  - intros cv. destruct Hwf as [m Hm]. rewrite process_line_eq.
    unfold line_frames. rewrite Hm. cbn. apply iter_emit_console.
Qed.

Lemma detector_accepts_parsable_first_line_witness :
  ∃ line rest, str "a;b 2" ++ LF :: str "c 1" = line ++ LF :: rest ∧
               well_formed_line line.
Proof.
  destruct (detector_accepts_parsable_first_line (str "a;b 2" ++ LF :: str "c 1"))
    as (line & rest & H1 & _ & _ & H2 & _); [by vm_compute |].
  by exists line, rest.
Defined.

(** X7: a text without a line break is never accepted by the detector,
    also when it is a line with a frame path and a weight that the converter
    turns into samples. *)
Theorem detector_rejects_single_line :
  (∀ text, LF ∉ text → isFlameGraphFormat text = false) ∧
  (∀ frames digits,
     LF ∉ frames → digits ≠ [] → Forall (λ a, JS.is_digit a = true) digits →
     isFlameGraphFormat (frames ++ " " :: digits) = false ∧
     length (samples (cv_thread (run (frames ++ " " :: digits))))
     = JS.parseInt_digits 0 digits).
Proof.
  split; [apply detector_no_line_break |].
  intros frames digits Hlf Hne Hd.
  assert (LF ∉ frames ++ " " :: digits) as Hlf'.
  { rewrite not_elem_of_app, not_elem_of_cons. split; [done |]. split; [done |].
    intros Hin. rewrite Forall_forall in Hd. by apply Hd in Hin. }
  split; [by apply detector_no_line_break |].
  unfold run, run_lines. rewrite split_no_sep by done. cbn [foldl].
  pose proof (process_weighted_line (Conv createThread 0 []) frames digits [] Hne Hd)
    as Hp. rewrite app_nil_r in Hp. rewrite Hp by constructor.
  by rewrite iter_emit_samples.
Qed.

Lemma detector_rejects_single_line_witness :
  isFlameGraphFormat (str "main;foo;bar 12") = false ∧
  length (samples (cv_thread (run (str "main;foo;bar 12")))) = 12.
Proof.
  destruct detector_rejects_single_line as [_ H].
  apply (H (str "main;foo;bar") (str "12")); [compute_done | done |].
  by repeat constructor.
Defined.

(** X8: in the thread of every conversion the frame table and the string
    table have one row per distinct raw label, every category is an index
    into the three categories of the metadata, and every sample has the
    responsiveness 0. *)
Theorem frame_rows_aligned (profile : jsstr) :
  ∃ tr, threads (convertFlameGraphProfile profile) = [tr] ∧
    length (tr_frameTable tr) = length (first_seen (frame_calls profile)) ∧
    length (tr_stringTable tr) = length (tr_frameTable tr) ∧
    (∀ row, row ∈ tr_frameTable tr → fr_category row < length CATEGORIES) ∧
    (∀ row, row ∈ tr_samples tr → sa_responsiveness row = 0).
Proof.
  eexists. split; [reflexivity |].
  cbn [finish tr_frameTable tr_stringTable tr_samples].
  destruct (run_inv profile) as [[Hinv _] _].
  destruct (inv_frame_count _ _ Hinv) as [Hfl Hsl].
  split; [done |]. split; [congruence |]. split.
  - intros row [i Hi]%list_elem_of_lookup.
    rewrite (inv_frameTable _ _ Hinv), list_lookup_imap in Hi.
    destruct (_ !! i) as [l|]; [| done]. injection Hi as <-. cbn.
    unfold frame_category, JAVA_CATEGORY_INDEX, NATIVE_CATEGORY_INDEX,
      OTHER_CATEGORY_INDEX.
    destruct (JS.endsWith _ _); [lia |]. destruct (negb _); lia.
  - apply run_responsiveness.
Qed.

Lemma frame_rows_aligned_witness :
  fr_category (FrameRow 0 NATIVE_CATEGORY_INDEX) < length CATEGORIES.
Proof.
  destruct (frame_rows_aligned (str "a 1")) as (tr & Htr & _ & _ & H & _).
  injection Htr as <-. apply H. compute_done.
Defined.

(** ** The ruler *)

Section ruler.
Implicit Types (u : Q) (l : list Z) (n m : Z).

Lemma Qlt_bool_iff x y : Qlt_bool x y = true ↔ (x < y)%Q.
Proof.
  unfold Qlt_bool. rewrite negb_true_iff. split.
  - intros H. apply Qnot_le_lt. intros Hle. apply Qle_bool_iff in Hle. congruence.
  - intros H. destruct (Qle_bool y x) eqn:E; [| done].
    apply Qle_bool_iff in E. destruct (Qlt_not_le _ _ H E).
Qed.

Lemma first_at_least_Some u l n :
  first_at_least u l = Some n ↔
  ∃ l1 l2, l = l1 ++ n :: l2 ∧ (u <= inject_Z n)%Q ∧
           Forall (λ m, (inject_Z m < u)%Q) l1.
Proof.
  unfold first_at_least. induction l as [|a l IH]; cbn [find].
  - split; [done |]. intros (l1 & l2 & Hl & _). by destruct l1.
  - destruct (Qle_bool u (inject_Z a)) eqn:Ha.
    + apply Qle_bool_iff in Ha. split.
      * intros [= <-]. by exists [], l.
      * intros (l1 & l2 & Hl & Hn & Hl1). destruct l1 as [|b l1]; simplify_eq/=; [done |].
        apply Forall_cons in Hl1 as [Hb _]. destruct (Qlt_not_le _ _ Hb Ha).
    + assert (inject_Z a < u)%Q as Ha'.
      { apply Qnot_le_lt. intros Hle. apply Qle_bool_iff in Hle. congruence. }
      rewrite IH. split.
      * intros (l1 & l2 & -> & Hn & Hl1). exists (a :: l1), l2.
        split; [done |]. split; [done |]. by constructor.
      * intros (l1 & l2 & Hl & Hn & Hl1). destruct l1 as [|b l1]; simplify_eq/=.
        -- destruct (Qlt_not_le _ _ Ha' Hn).
        -- apply Forall_cons in Hl1 as [_ Hl1]. by exists l1, l2.
Qed.

Lemma first_at_least_None u l :
  first_at_least u l = None ↔ Forall (λ m, (inject_Z m < u)%Q) l.
Proof.
  unfold first_at_least. induction l as [|a l IH]; cbn [find]; [done |].
  destruct (Qle_bool u (inject_Z a)) eqn:Ha.
  - apply Qle_bool_iff in Ha. split; [done |].
    intros [Hb _]%Forall_cons. destruct (Qlt_not_le _ _ Hb Ha).
  - rewrite IH, Forall_cons. split; [| tauto]. intros Hl. split; [| done].
    apply Qnot_le_lt. intros Hle. apply Qle_bool_iff in Hle. congruence.
Qed.

Lemma increasing_tail l1 n l2 m :
  increasing (l1 ++ n :: l2) = true → m ∈ l2 → (n <= m)%Z.
Proof.
  induction l1 as [|a l1 IH]; cbn [app increasing].
  - intros [Hn _]%andb_true_iff Hm%list_elem_of_In.
    rewrite forallb_forall in Hn. by apply Z.leb_le, Hn.
  - intros [_ Hl]%andb_true_iff. by apply IH.
Qed.

(** In an increasing list the first candidate that is not below [u] is the
    least one. *)
Lemma first_at_least_least u l n :
  increasing l = true → first_at_least u l = Some n →
  n ∈ l ∧ (u <= inject_Z n)%Q ∧
  ∀ m, m ∈ l → (u <= inject_Z m)%Q → (n <= m)%Z.
Proof.
  intros Hsorted (l1 & l2 & -> & Hn & Hl1)%first_at_least_Some.
  split; [apply elem_of_app; right; by left |]. split; [done |].
  intros m Hm Hum. apply elem_of_app in Hm as [Hm | Hm].
  - rewrite Forall_forall in Hl1. apply Hl1 in Hm. destruct (Qlt_not_le _ _ Hm Hum).
  - apply elem_of_cons in Hm as [-> | Hm]; [done |]. by eapply increasing_tail.
Qed.

Lemma byte_candidates_powers :
  byte_candidates = (λ k, 2 ^ Z.of_nat k)%Z <$> seq 10 30.
Proof. by vm_compute. Qed.
End ruler.

Section ruler_lemmas.
Implicit Types (u : Q).

Lemma first_at_least_found u l last :
  last ∈ l → (u <= inject_Z last)%Q → is_Some (first_at_least u l).
Proof.
  intros Hin Hu. destruct (first_at_least u l) eqn:E; [by eexists |].
  apply first_at_least_None in E. rewrite Forall_forall in E.
  destruct (Qlt_not_le _ _ (E _ Hin) Hu).
Qed.
End ruler_lemmas.

(** X9: for a unit other than bytes and a distance above 10 seconds and up
    to 48 hours, the ruler's nice number is the least of the listed steps
    (15, 20, 30 seconds; 1 to 30 minutes; 1 to 48 hours) that is not below
    the distance; the decimal rounding is not reached. *)
Theorem ruler_time_nice_number (decimal_nice : Q → Q) (unit : string) (u : Q) :
  unit ≠ "bytes"%string →
  (inject_Z 10000 < u)%Q → (u <= inject_Z (48 * 3600 * 1000))%Q →
  ∃ n, findNiceNumberGreaterOrEqualTo decimal_nice unit u = inject_Z n ∧
       n ∈ time_candidates ∧ (u <= inject_Z n)%Q ∧
       ∀ m, m ∈ time_candidates → (u <= inject_Z m)%Q → (n <= m)%Z.
Proof.
  intros Hunit Hlo Hhi. unfold findNiceNumberGreaterOrEqualTo.
  apply String.eqb_neq in Hunit. rewrite Hunit.
  apply Qlt_bool_iff in Hlo as ->. pose proof Hhi as Hhi'.
  apply Qle_bool_iff in Hhi' as ->. cbn [andb].
  destruct (first_at_least_found u time_candidates (48 * 3600 * 1000)) as [n Hn];
    [compute_done | done |].
  rewrite Hn. exists n. split; [done |].
  by apply first_at_least_least.
Qed.

Lemma ruler_time_nice_number_witness :
  ∃ n, findNiceNumberGreaterOrEqualTo (λ q, q) "ms" (inject_Z 45000) = inject_Z n ∧
       n ∈ time_candidates.
Proof.
  destruct (ruler_time_nice_number (λ q, q) "ms" (inject_Z 45000))
    as (n & Hn & Hin & _); [done | done | by vm_compute |].
  by exists n.
Defined.

(** X10: for bytes and a distance above 1024 and up to 512 * 1024^3, the
    ruler's nice number is the least power of two that is not below the
    distance. *)
Theorem ruler_bytes_power_of_two (decimal_nice : Q → Q) (u : Q) :
  (inject_Z 1024 < u)%Q → (u <= inject_Z (512 * 1024 ^ 3))%Q →
  ∃ k : nat,
    11 ≤ k ≤ 39 ∧
    findNiceNumberGreaterOrEqualTo decimal_nice "bytes" u
    = inject_Z (2 ^ Z.of_nat k) ∧
    (inject_Z (2 ^ (Z.of_nat k - 1)) < u)%Q ∧ (u <= inject_Z (2 ^ Z.of_nat k))%Q.
Proof.
  intros Hlo Hhi. unfold findNiceNumberGreaterOrEqualTo. cbn [String.eqb Ascii.eqb Bool.eqb].
  apply Qlt_bool_iff in Hlo as Hlo'. rewrite Hlo'.
  assert (u <= inject_Z (1024 ^ 4))%Q as Hhi'.
  { eapply Qle_trans; [done |]. by rewrite <- Zle_Qle. }
  apply Qle_bool_iff in Hhi' as ->. cbn [andb].
  destruct (first_at_least_found u byte_candidates (512 * 1024 ^ 3)) as [n Hn];
    [compute_done | done |].
  rewrite Hn. apply first_at_least_Some in Hn as (l1 & l2 & Hl & Hun & Hl1).
  pose proof (list_lookup_middle l1 l2 n (length l1) eq_refl) as Hi.
  rewrite <- Hl, byte_candidates_powers, list_lookup_fmap in Hi.
  destruct (seq 10 30 !! length l1) as [k|] eqn:Hk; [| done].
  injection Hi as <-. apply lookup_seq in Hk as [-> Hlen].
  destruct l1 as [|a l1 _] using rev_ind.
  { cbn in Hun. destruct (Qlt_not_le _ _ Hlo Hun). }
  rewrite length_app in *. cbn [length] in *.
  exists (10 + (length l1 + 1)). split; [lia |]. split; [done |]. split; [| done].
  apply Forall_app in Hl1 as [_ [Ha _]%Forall_cons].
  assert (byte_candidates !! length l1 = Some a) as Hj.
  { rewrite Hl, <- app_assoc. by apply list_lookup_middle. }
  rewrite byte_candidates_powers, list_lookup_fmap in Hj.
  destruct (seq 10 30 !! length l1) as [j|] eqn:Hjk; [| done].
  injection Hj as <-. apply lookup_seq in Hjk as [-> _].
  by replace (Z.of_nat (10 + (length l1 + 1)) - 1)%Z with (Z.of_nat (10 + length l1))
    by lia.
Qed.

Lemma ruler_bytes_power_of_two_witness :
  ∃ k : nat, findNiceNumberGreaterOrEqualTo (λ q, q) "bytes" (inject_Z 3000)
             = inject_Z (2 ^ Z.of_nat k).
Proof.
  destruct (ruler_bytes_power_of_two (λ q, q) (inject_Z 3000))
    as (k & _ & Hk & _); [done | by vm_compute |].
  by exists k.
Defined.

(** ** The canvas *)

Section canvas.
Implicit Types (c : canvas) (e : canvas_event).

Lemma canvas_step_inv c e : canvas_inv c → canvas_inv (canvas_step c e).
Proof.
  intros [Hp Hr]. destruct c as [rs iv rq hc p d]. cbn in Hp, Hr.
  destruct e as [| | v | b |]; cbn [canvas_step];
    unfold scheduleDraw, observerCallback, takeCanvasRef, animationFrame, canvas_inv;
    cbn; try case_decide;
    destruct rs, iv, rq; try destruct v; cbn in *; subst;
    try (specialize (Hr eq_refl)); try discriminate; split; try done; try lia.
Qed.

Lemma canvas_run_inv events : canvas_inv (canvas_run events).
Proof.
  unfold canvas_run. assert (canvas_inv canvas_init) as H by done.
  revert H. generalize canvas_init. induction events as [|e events IH]; intros c Hc;
    [done |].
  cbn [foldl]. by apply IH, canvas_step_inv.
Qed.

Lemma scheduleDraw_due c : canvas_inv c → draw_due (scheduleDraw c).
Proof.
  intros [Hp Hr]. destruct c as [rs iv rq hc p d]. cbn in *.
  unfold scheduleDraw, draw_due; cbn.
  destruct iv, rq; cbn in *; subst; auto.
Qed.

Lemma canvas_step_due c e :
  e ≠ FrameRan → canvas_inv c → draw_due c → draw_due (canvas_step c e).
Proof.
  intros He Hinv Hdue. destruct e as [| | v | b |].
  - by apply scheduleDraw_due.
  - by apply scheduleDraw_due.
  - destruct Hinv as [Hp Hr]. destruct c as [rs iv rq hc p d]. cbn in Hp, Hr.
    unfold draw_due in Hdue. cbn in Hdue. cbn [canvas_step].
    unfold observerCallback, scheduleDraw, draw_due; cbn.
    destruct rs, v, rq; cbn in *; subst; intuition (try congruence; try lia).
  - destruct c. exact Hdue.
  - done.
Qed.
End canvas.

(** X12: whatever happens to the canvas component, at most one animation
    frame is requested at a time (exactly one while the flag
    [_requestedAnimationFrame] is set), and a render is only marked as
    scheduled while the canvas is out of view. *)
Theorem one_frame_at_a_time (events : list canvas_event) :
  pendingFrames (canvas_run events)
  = (if requestedAnimationFrame (canvas_run events) then 1 else 0) ∧
  pendingFrames (canvas_run events) ≤ 1 ∧
  (renderScheduled (canvas_run events) = true → inView (canvas_run events) = false) ∧
  draws (canvas_run events) ≤ length (filter (λ e, e = FrameRan) events).
Proof.
  destruct (canvas_run_inv events) as [Hp Hr].
  split; [done |]. split; [rewrite Hp; destruct (requestedAnimationFrame _); lia |].
  split; [done |].
  unfold canvas_run. clear Hp Hr.
  assert (∀ c, draws (foldl canvas_step c events)
               ≤ draws c + length (filter (λ e, e = FrameRan) events)) as H.
  { induction events as [|e events IH]; intros c; [cbn; lia |].
    cbn [foldl]. specialize (IH (canvas_step c e)). rewrite filter_cons.
    assert (draws (canvas_step c e)
            ≤ draws c + (if decide (e = FrameRan) then 1 else 0)) as Hs.
    { destruct c as [rs iv rq hc p d].
      destruct e as [| | v | b |]; cbn;
        unfold scheduleDraw, observerCallback, scheduleDraw, takeCanvasRef,
          animationFrame; cbn;
        repeat case_decide; try done;
        destruct rs, iv, rq, hc; try destruct v; cbn; lia. }
    destruct (decide (e = FrameRan)); cbn [length]; lia. }
  apply (H canvas_init).
Qed.

Lemma one_frame_at_a_time_witness :
  renderScheduled (canvas_run [DidMount]) = true ∧
  inView (canvas_run [DidMount]) = false.
Proof.
  destruct (one_frame_at_a_time [DidMount]) as (_ & _ & H & _).
  split; [done | by apply H].
Defined.

(** X13: an update is not lost: after the component was mounted or
    updated, and until the next animation frame runs, a frame is requested
    or the render is deferred while the canvas is out of view; and when the
    observer then reports the canvas in view, a frame is requested. *)
Theorem update_not_lost (before after : list canvas_event) (e : canvas_event) :
  e = DidMount ∨ e = DidUpdate →
  FrameRan ∉ after →
  let c := canvas_run (before ++ e :: after) in
  draw_due c ∧ pendingFrames (observerCallback true c) = 1.
Proof.
  intros He Hafter c.
  assert (draw_due c) as Hdue.
  { subst c. unfold canvas_run. rewrite foldl_app. cbn [foldl].
    pose proof (canvas_run_inv before) as Hinv. unfold canvas_run in Hinv.
    set (c0 := foldl canvas_step canvas_init before) in *.
    assert (canvas_inv (canvas_step c0 e)) as Hinv1 by (by apply canvas_step_inv).
    assert (draw_due (canvas_step c0 e)) as Hdue1.
    { destruct He as [-> | ->]; by apply scheduleDraw_due. }
    revert Hinv1 Hdue1. generalize (canvas_step c0 e). clear - Hafter.
    induction after as [|e' after IH]; intros c1 Hinv1 Hdue1; [done |].
    apply not_elem_of_cons in Hafter as [Hne Hafter]. cbn [foldl].
    apply IH; [done | by apply canvas_step_inv |].
    apply canvas_step_due; [congruence | done | done]. }
  split; [done |].
  destruct (canvas_run_inv (before ++ e :: after)) as [Hp Hr]. fold c in Hp, Hr.
  destruct c as [rs iv rq hc p d]. cbn in *.
  unfold observerCallback, scheduleDraw, draw_due in *; cbn in *.
  destruct rs, rq; cbn in *; subst; intuition (try congruence; try lia).
Qed.

Lemma update_not_lost_witness :
  draw_due (canvas_run ([DidMount; Observed true] ++ DidUpdate :: [Observed false])).
Proof.
  apply (update_not_lost [DidMount; Observed true] [Observed false] DidUpdate);
    [by right | compute_done].
Defined.

(** ** The context menu *)

(** X14: the two menu items that [render] can disable never invert the
    selection when they are enabled: starting the selection at the marker's
    end keeps the current end and puts the start at or before it, ending the
    selection at the marker's start keeps the current start and puts the end
    at or after it. *)
Theorem guarded_items_keep_order (add_small : Q → Q) (p : menu_props) :
  (∀ x, (x <= add_small x)%Q) →
  (disabled_startAtMarkerEnd p = false →
   setStartRangeFromMarkerEnd p
   = Selection false (end_or_start (prop_marker p)) (current_selectionEnd p) ∧
   ordered (setStartRangeFromMarkerEnd p)) ∧
  (disabled_endAtMarkerStart p = false →
   (∃ e, setEndRangeFromMarkerStart add_small p
         = Selection false (current_selectionStart p) e) ∧
   ordered (setEndRangeFromMarkerStart add_small p)).
Proof.
  intros Hadd. split.
  - intros Hd. split; [done |]. cbn.
    unfold disabled_startAtMarkerEnd, Qlt_bool in Hd.
    apply negb_false_iff, Qle_bool_iff in Hd. done.
  - intros Hd. split; [by eexists |].
    unfold disabled_endAtMarkerStart, Qlt_bool in Hd.
    apply negb_false_iff, Qle_bool_iff in Hd.
    unfold setEndRangeFromMarkerStart, setEndRange. cbn [ordered].
    destruct (Qeq_bool _ _) eqn:E; [| done].
    eapply Qle_trans; [exact Hd | apply Hadd].
Qed.

Lemma guarded_items_keep_order_witness :
  ordered (setStartRangeFromMarkerEnd
             (MenuProps (Marker (inject_Z 2) (Some (inject_Z 5))) NoSelection
                        (StartEndRange (inject_Z 0) (inject_Z 10)))).
Proof.
  destruct (guarded_items_keep_order (λ x, (x + inject_Z 1)%Q)
              (MenuProps (Marker (inject_Z 2) (Some (inject_Z 5))) NoSelection
                         (StartEndRange (inject_Z 0) (inject_Z 10)))) as [H _].
  - intros x. rewrite <- (Qplus_0_r x) at 1. by apply Qplus_le_r.
  - by apply H.
Defined.
